(** * A shallow embedding of the Mistral Codestral MCP adapter

    The development follows [src/mistral.ts] (the completion client and the
    prompt builder) and [src/index.ts] (the code-block extractor
    [formatResponse]).  JavaScript strings are sequences of UTF-16 code
    units; the bodies the transport hands over are JSON values; a thrown
    [Error] keeps its message as the template it was built from; zod
    schemas are parsers built from combinators; the regular expression of
    the extractor is run by a backtracking matcher.  The state the client
    has (the pacing timestamp, the module-level singleton) and the world
    around it (the clock, the requests sent) are passed explicitly. *)

From Stdlib Require Import String Ascii.
From Stdlib Require Import List Bool Arith ZArith NArith QArith Lia.
Import Corelib.Init.Datatypes.
Import ListNotations.
Close Scope Q_scope.

Set Implicit Arguments.
Set Warnings "-register-all".

(* ===================================================================== *)
(** * JavaScript strings *)
(* ===================================================================== *)

Module JsString.

(** A string is its sequence of UTF-16 code units. *)
Definition jstring := list N.

(** Source literals are ASCII; [lit] reads one as code units. *)
Definition lit (s : string) : jstring :=
  map N_of_ascii (list_ascii_of_string s).

(** The escape [\n] (U+000A) and the backtick (U+0060). *)
Definition LF : N := 10%N.
Definition BACKTICK : N := 96%N.
Definition nl : jstring := [LF].

Definition eqb (a b : jstring) : bool :=
  if list_eq_dec N.eq_dec a b then true else false.

(** [!s] on a string: only the empty string is falsy. *)
Definition truthy (s : jstring) : bool :=
  match s with [] => false | _ :: _ => true end.

(** ECMAScript WhiteSpace and LineTerminator code units: what [\s]
    matches and what [String.prototype.trim] strips. *)
Definition is_space (c : N) : bool :=
  ((9 <=? c) && (c <=? 13) || (c =? 32) || (c =? 160) || (c =? 5760)
   || (8192 <=? c) && (c <=? 8202) || (c =? 8232) || (c =? 8233)
   || (c =? 8239) || (c =? 8287) || (c =? 12288) || (c =? 65279))%N.

(** [\w] without the [u] and [i] flags: [A-Za-z0-9_]. *)
Definition is_word (c : N) : bool :=
  ((65 <=? c) && (c <=? 90) || (97 <=? c) && (c <=? 122)
   || (48 <=? c) && (c <=? 57) || (c =? 95))%N.

(** [[\s\S]]: every code unit. *)
Definition is_any (c : N) : bool := is_space c || negb (is_space c).

Fixpoint dropWhile (p : N -> bool) (s : jstring) : jstring :=
  match s with
  | [] => []
  | c :: s' => if p c then dropWhile p s' else s
  end.

Definition trimStart (s : jstring) : jstring := dropWhile is_space s.
Definition trimEnd (s : jstring) : jstring :=
  rev (dropWhile is_space (rev s)).

(** [String.prototype.trim]. *)
Definition trim (s : jstring) : jstring := trimEnd (trimStart s).

(** [Array.prototype.join] on an array of strings. *)
Fixpoint join (sep : jstring) (parts : list jstring) : jstring :=
  match parts with
  | [] => []
  | [p] => p
  | p :: rest => p ++ sep ++ join sep rest
  end.

End JsString.
Import JsString.

(* ===================================================================== *)
(** * The prompt builder ([MistralAPI.createPrompt]) *)
(* ===================================================================== *)

(** The [task] parameter: ['complete' | 'fix' | 'test' | 'fim']. *)
Inductive Task := complete | fix_ | test | fim.

Record Message := { role : jstring; content : jstring }.

Definition systemPrompts (task : Task) : jstring :=
  match task with
  | complete => lit "You are an expert programmer. Continue or complete the provided code according to best practices."
  | fix_ => lit "You are an expert programmer. Analyze the code for bugs and provide a corrected version with explanations of the fixes."
  | test => lit "You are an expert programmer. Generate comprehensive unit tests for the provided code using appropriate testing frameworks."
  | fim => lit "You are an expert programmer. Complete the code between the given start and end sections, ensuring it flows naturally."
  end.

(** An optional string parameter is [None] when [undefined]; it is truthy
    when it is defined and not empty. *)
Definition opt_truthy (o : option jstring) : bool :=
  match o with Some s => truthy s | None => false end.

(** [language || ''] and [${suffix}] under a truthiness guard. *)
Definition or_empty (o : option jstring) : jstring :=
  match o with Some s => if truthy s then s else [] | None => [] end.

Definition is_fim (t : Task) : bool :=
  match t with fim => true | _ => false end.

Definition createPrompt (code : jstring) (language : option jstring)
    (task : Task) (suffix : option jstring) : list Message :=
  let langStr :=
    if opt_truthy language then lit " " ++ or_empty language else [] in
  let userContent :=
    lit "Here is the" ++ langStr ++ lit " code:" ++ nl ++ nl
      ++ lit "```" ++ or_empty language ++ nl ++ code ++ nl ++ lit "```" in
  let userContent :=
    if is_fim task && opt_truthy suffix
    then userContent ++ nl ++ nl ++ lit "The code should end with:" ++ nl ++ nl
           ++ lit "```" ++ or_empty language ++ nl ++ or_empty suffix ++ nl
           ++ lit "```"
    else userContent in
  [ {| role := lit "system"; content := systemPrompts task |};
    {| role := lit "user"; content := userContent |} ].

(** Number of triple-backtick delimiters in a text, read left to right
    without overlap; a text made of [n] fenced blocks has [2 * n]. *)
Fixpoint count_fences (s : jstring) : nat :=
  match s with
  | [] => 0
  | a :: t1 =>
      match t1 with
      | b :: c :: t3 =>
          if ((a =? BACKTICK) && (b =? BACKTICK) && (c =? BACKTICK))%N
          then S (count_fences t3) else count_fences t1
      | _ => 0
      end
  end.

(* ===================================================================== *)
(** * JSON values, as [response.data] and [error.response.data] hold them *)
(* ===================================================================== *)

Module Json.

(** Numbers are only passed along, tested with [typeof] and for
    truthiness; rationals stand for them. *)
Inductive json :=
| JNull
| JBool (b : bool)
| JNum (n : Q)
| JStr (s : jstring)
| JArr (items : list json)
| JObj (fields : list (jstring * json)).

(** A JavaScript value of type [any]: [None] is [undefined]. *)
Definition jsval := option json.

(** The value of key [k] in an object; a parsed object has each key once,
    and the first entry is the one read. *)
Fixpoint lookup (k : jstring) (fields : list (jstring * json)) : jsval :=
  match fields with
  | [] => None
  | (k', v) :: rest => if JsString.eqb k k' then Some v else lookup k rest
  end.

(** [v?.k] for the keys the client reads ([error], [message]): defined
    only on an object that has the key. *)
Definition get (k : jstring) (v : jsval) : jsval :=
  match v with
  | Some (JObj o) => lookup k o
  | _ => None
  end.

(** ToBoolean. *)
Definition truthy (v : jsval) : bool :=
  match v with
  | None | Some JNull => false
  | Some (JBool b) => b
  | Some (JNum n) => negb (Qeq_bool n 0)
  | Some (JStr s) => JsString.truthy s
  | Some (JArr _) | Some (JObj _) => true
  end.

(** [a || b]. *)
Definition or_else (a b : jsval) : jsval := if truthy a then a else b.

End Json.
Import Json.

(* ===================================================================== *)
(** * Thrown values *)
(* ===================================================================== *)

(** zod's view of a value's type ([getParsedType]). *)
Inductive ZodParsedType :=
  zt_string | zt_number | zt_boolean | zt_null | zt_undefined
| zt_array | zt_object.

Inductive PathSeg := Key (k : jstring) | Idx (i : nat).

(** The only issue the schema below can raise is [invalid_type]. *)
Record ZodIssue := {
  expected : ZodParsedType;
  received : ZodParsedType;
  path : list PathSeg
}.

(** The pieces of a template literal: text, [${v}],
    [${JSON.stringify(v)}] and [${e.message}]. *)
Inductive Part (E : Type) :=
| Text (s : jstring)
| Subst (v : jsval)
| SubstJSON (v : jsval)
| SubstMessage (e : E).
Arguments Text {E} s.
Arguments Subst {E} v.
Arguments SubstJSON {E} v.

(** What the code throws: [new Error(message)] with its message kept as
    the template it was built from, or the [ZodError] of a failed
    [parse]. *)
Inductive Thrown :=
| Error (message : list (Part Thrown))
| ZodError (issues : list ZodIssue).

Definition Result (A : Type) := (Thrown + A)%type.
Definition throw {A} (e : Thrown) : Result A := inl e.
Definition ret {A} (a : A) : Result A := inr a.

(* ===================================================================== *)
(** * zod schemas *)
(* ===================================================================== *)

Module Zod.

Definition getParsedType (v : jsval) : ZodParsedType :=
  match v with
  | None => zt_undefined
  | Some JNull => zt_null
  | Some (JBool _) => zt_boolean
  | Some (JNum _) => zt_number
  | Some (JStr _) => zt_string
  | Some (JArr _) => zt_array
  | Some (JObj _) => zt_object
  end.

(** A schema for values of type [A]: given the path so far and the
    input, the issues found or the parsed value. *)
Definition Schema (A : Type) := list PathSeg -> jsval -> list ZodIssue + A.

Definition invalid_type {A} (e : ZodParsedType) (p : list PathSeg)
    (v : jsval) : list ZodIssue + A :=
  inl [ {| expected := e; received := getParsedType v; path := p |} ].

(** [z.string()] *)
Definition string : Schema jstring := fun p v =>
  match v with
  | Some (JStr s) => inr s
  | _ => invalid_type zt_string p v
  end.

(** [z.number()] *)
Definition number : Schema Q := fun p v =>
  match v with
  | Some (JNum n) => inr n
  | _ => invalid_type zt_number p v
  end.

(** [s.optional()] *)
Definition optional {A} (s : Schema A) : Schema (option A) := fun p v =>
  match v with
  | None => inr None
  | Some _ =>
      match s p v with
      | inr a => inr (Some a)
      | inl e => inl e
      end
  end.

(** Parsing the items of an array from index [i] on: every item is
    parsed, and the issues of all of them are collected. *)
Fixpoint items {A} (s : Schema A) (p : list PathSeg) (i : nat)
    (l : list json) : list ZodIssue + list A :=
  match l with
  | [] => inr []
  | x :: rest =>
      match s (p ++ [Idx i]) (Some x), items s p (S i) rest with
      | inr a, inr l' => inr (a :: l')
      | inl e, inr _ => inl e
      | inr _, inl e => inl e
      | inl e, inl e' => inl (e ++ e')
      end
  end.

(** [z.array(s)] *)
Definition array {A} (s : Schema A) : Schema (list A) := fun p v =>
  match v with
  | Some (JArr l) => items s p 0 l
  | _ => invalid_type zt_array p v
  end.

(** The keys of an object shape, read in order from the input object
    [o]; unknown keys of [o] are never looked at (zod strips them). *)
Definition Shape (A : Type) :=
  list (jstring * json) -> list PathSeg -> list ZodIssue + A.

Definition shape {A} (a : A) : Shape A := fun _ _ => inr a.

Definition key {A B} (f : Shape (A -> B)) (k : jstring) (s : Schema A)
    : Shape B := fun o p =>
  match f o p, s (p ++ [Key k]) (lookup k o) with
  | inr g, inr a => inr (g a)
  | inl e, inr _ => inl e
  | inr _, inl e => inl e
  | inl e, inl e' => inl (e ++ e')
  end.

(** [z.object({...})] *)
Definition object {A} (sh : Shape A) : Schema A := fun p v =>
  match v with
  | Some (JObj o) => sh o p
  | _ => invalid_type zt_object p v
  end.

(** [schema.parse(data)]: the value, or a thrown [ZodError]. *)
Definition parse {A} (s : Schema A) (data : jsval) : Result A :=
  match s [] data with
  | inr a => ret a
  | inl issues => throw (ZodError issues)
  end.

End Zod.

(* ===================================================================== *)
(** * The completion client ([src/mistral.ts]) *)
(* ===================================================================== *)

Definition MISTRAL_API_BASE : jstring := lit "https://api.mistral.ai/v1".

Inductive MistralModel := CODESTRAL | CODESTRAL_MAMBA.

Definition MISTRAL_MODELS (m : MistralModel) : jstring :=
  match m with
  | CODESTRAL => lit "codestral-latest"
  | CODESTRAL_MAMBA => lit "codestral-mamba-latest"
  end.

Record Choice := {
  index : Q;
  message : Message;
  finish_reason : option jstring
}.

Record Usage := {
  prompt_tokens : Q;
  completion_tokens : Q;
  total_tokens : Q
}.

(** [z.infer<typeof CompletionResponseSchema>] *)
Record CompletionResponse := {
  id : jstring;
  object : jstring;
  created : Q;
  model : jstring;
  choices : list Choice;
  usage : Usage
}.

Notation "f <.> k ':::' s" := (Zod.key f (lit k) s)
  (at level 50, left associativity, k at next level, s at next level).

Definition MessageSchema : Zod.Schema Message :=
  Zod.object (Zod.shape Build_Message
    <.> "role" ::: Zod.string
    <.> "content" ::: Zod.string).

Definition ChoiceSchema : Zod.Schema Choice :=
  Zod.object (Zod.shape Build_Choice
    <.> "index" ::: Zod.number
    <.> "message" ::: MessageSchema
    <.> "finish_reason" ::: Zod.optional Zod.string).

Definition UsageSchema : Zod.Schema Usage :=
  Zod.object (Zod.shape Build_Usage
    <.> "prompt_tokens" ::: Zod.number
    <.> "completion_tokens" ::: Zod.number
    <.> "total_tokens" ::: Zod.number).

Definition CompletionResponseSchema : Zod.Schema CompletionResponse :=
  Zod.object (Zod.shape Build_CompletionResponse
    <.> "id" ::: Zod.string
    <.> "object" ::: Zod.string
    <.> "created" ::: Zod.number
    <.> "model" ::: Zod.string
    <.> "choices" ::: Zod.array ChoiceSchema
    <.> "usage" ::: UsageSchema).

(** ** The transport (axios) *)

(** [axios.create({baseURL, headers, timeout})] *)
Record AxiosConfig := {
  baseURL : jstring;
  headers : list (jstring * jstring);
  timeout : Z
}.

(** What the client reads of a response: [status] and [data]. *)
Record AxiosResponse := { status : Z; data : jsval }.

(** An [AxiosError]: its own message and, when the server answered, the
    response. *)
Record AxiosError := { error_message : jstring; response : option AxiosResponse }.

(** What a [catch] clause receives: an [AxiosError] or any other thrown
    value. *)
Inductive Caught :=
| CaughtAxios (error : AxiosError)
| CaughtOther (error : Thrown).

(** How an awaited request settles. *)
Inductive Settled :=
| Fulfilled (response : AxiosResponse)
| Rejected (error : Caught).

Module Chat.
Record Options := {
  model : option MistralModel;
  temperature : option Q;
  top_p : option Q;
  max_tokens : option Q;
  stop : option (list jstring)
}.
Record Body := {
  body_model : jstring;
  body_messages : list Message;
  body_temperature : Q;
  body_top_p : Q;
  body_max_tokens : Q;
  body_stop : option (list jstring)
}.
(** [options = {}] *)
Definition no_options : Options :=
  {| model := None; temperature := None; top_p := None;
     max_tokens := None; stop := None |}.
End Chat.

Module Fim.
Record Options := {
  suffix : option jstring;
  temperature : option Q;
  top_p : option Q;
  max_tokens : option Q;
  stop : option (list jstring)
}.
Record Body := {
  body_model : jstring;
  body_prompt : jstring;
  body_suffix : option jstring;
  body_temperature : Q;
  body_top_p : Q;
  body_max_tokens : Q;
  body_stop : option (list jstring)
}.
Definition no_options : Options :=
  {| suffix := None; temperature := None; top_p := None;
     max_tokens := None; stop := None |}.
End Fim.

Inductive Payload :=
| ChatPayload (b : Chat.Body)
| FimPayload (b : Fim.Body).

(** The remote service: how a POST to a path with a payload settles. *)
Definition Network := jstring -> Payload -> Settled.

(** An outbound request, stamped with the time it was issued at. *)
Record Sent := { sent_at : Z; sent_to : jstring; sent_body : Payload }.

(** The world around the client: the clock that [Date.now()] reads, in
    milliseconds, and the requests issued so far, oldest first. *)
Record World := { now : Z; outbox : list Sent }.

(** [this.client.post(url, body)]: the request leaves at the current
    time.  The time the answer takes to come is not counted here: a
    caller that reads the clock after the answer lets it go by with
    [elapse]. *)
Definition post (net : Network) (url : jstring) (body : Payload) (w : World)
    : Settled * World :=
  (net url body,
   {| now := now w;
      outbox := outbox w ++ [ {| sent_at := now w; sent_to := url; sent_body := body |} ] |}).

(** [await new Promise(resolve => setTimeout(resolve, ms))], for a timer
    taken to fire exactly [ms] milliseconds later. *)
Definition setTimeout (ms : Z) (w : World) : World :=
  {| now := now w + Z.max ms 0; outbox := outbox w |}.

(** Time going by between two calls of the client. *)
Definition elapse (ms : Z) (w : World) : World :=
  {| now := now w + ms; outbox := outbox w |}.

(** ** The client object *)

Record MistralAPI := {
  apiKey : jstring;
  client : AxiosConfig;
  lastRequestTime : Z;
  minRequestInterval : Z
}.

(** [a ?? b] on an optional number. *)
Definition nullish (a : option Q) (b : Q) : Q :=
  match a with Some x => x | None => b end.

(** The constructor. *)
Definition new_MistralAPI (apiKey : jstring) : Result MistralAPI :=
  if negb (JsString.truthy apiKey) || (length (trim apiKey) =? 0)%nat
  then throw (Error [Text (lit "API key cannot be empty")])
  else
    let apiKey' := trim apiKey in
    ret {| apiKey := apiKey';
           client := {| baseURL := MISTRAL_API_BASE;
                        headers := [ (lit "Authorization", lit "Bearer " ++ apiKey');
                                     (lit "Content-Type", lit "application/json");
                                     (lit "Accept", lit "application/json") ];
                        timeout := 30000 |};
           lastRequestTime := 0;
           minRequestInterval := 100 |}.

(** [error.response?.status], as the value a template prints. *)
Definition status_of (error : AxiosError) : option Z :=
  option_map status (response error).

Definition status_val (error : AxiosError) : jsval :=
  option_map (fun s => JNum (inject_Z s)) (status_of error).

(** [error.response?.data] *)
Definition data_of (error : AxiosError) : jsval :=
  match response error with Some r => data r | None => None end.

(** [error.response?.data?.error?.message || error.message] *)
Definition message_of (error : AxiosError) : jsval :=
  or_else (get (lit "message") (get (lit "error") (data_of error)))
          (Some (JStr (error_message error))).

(** The [catch] clause of [chatCompletion]. *)
Definition chat_catch (error : Caught) : Thrown :=
  match error with
  | CaughtAxios error =>
      let status := status_of error in
      let message := message_of error in
      match status with
      | Some 401%Z => Error [Text (lit "Authentication failed. Please check your API key.")]
      | Some 429%Z => Error [Text (lit "Rate limit exceeded. Please try again later.")]
      | Some 500%Z => Error [Text (lit "Mistral API server error. Please try again later.")]
      | _ => Error [Text (lit "Mistral API error ("); Subst (status_val error);
                    Text (lit "): "); Subst message]
      end
  | CaughtOther error => error
  end.

(** The request body [chatCompletion] posts. *)
Definition chatRequestBody (messages : list Message) (options : Chat.Options)
    : Chat.Body :=
  {| Chat.body_model :=
       match Chat.model options with
       | Some m => MISTRAL_MODELS m
       | None => MISTRAL_MODELS CODESTRAL
       end;
     Chat.body_messages := messages;
     Chat.body_temperature := nullish (Chat.temperature options) (7 # 10);
     Chat.body_top_p := nullish (Chat.top_p options) 1;
     Chat.body_max_tokens := nullish (Chat.max_tokens options) 1000;
     Chat.body_stop := Chat.stop options |}.

(** [chatCompletion(messages, options = {})].  The method reads [this]
    and writes nothing to it; the object is returned as it is left. *)
Definition chatCompletion (net : Network) (this : MistralAPI)
    (messages : list Message) (options : Chat.Options) (w : World)
    : Result CompletionResponse * MistralAPI * World :=
  let body := ChatPayload (chatRequestBody messages options) in
  let (settled, w) := post net (lit "/chat/completions") body w in
  let tried :=
    match settled with
    | Fulfilled response =>
        match Zod.parse CompletionResponseSchema (data response) with
        | inr validatedResponse => inr validatedResponse
        | inl error => inl (CaughtOther error)
        end
    | Rejected error => inl error
    end in
  match tried with
  | inr validatedResponse => (ret validatedResponse, this, w)
  | inl error => (throw (chat_catch error), this, w)
  end.

(** The [catch] clause of [fimCompletion]. *)
Definition fim_catch (error : Caught) : Thrown :=
  match error with
  | CaughtAxios error =>
      let status := status_of error in
      let message := message_of error in
      match status with
      | Some 401%Z => Error [Text (lit "Authentication failed. Please check your API key.")]
      | Some 429%Z => Error [Text (lit "Rate limit exceeded. Please try again later.")]
      | Some 500%Z => Error [Text (lit "Mistral API server error. Please try again later.")]
      | _ => Error [Text (lit "Mistral API error ("); Subst (status_val error);
                    Text (lit "): "); Subst message; Text nl;
                    Text (lit "Response: "); SubstJSON (data_of error)]
      end
  | CaughtOther err =>
      Error [Text (lit "Unexpected error during FIM completion: "); SubstMessage err]
  end.

(** The request body [fimCompletion] builds. *)
Definition fimRequestBody (prompt : jstring) (options : Fim.Options) : Fim.Body :=
  {| Fim.body_model := MISTRAL_MODELS CODESTRAL;
     Fim.body_prompt := prompt;
     Fim.body_suffix := Fim.suffix options;
     Fim.body_temperature := nullish (Fim.temperature options) 0;
     Fim.body_top_p := nullish (Fim.top_p options) 1;
     Fim.body_max_tokens := nullish (Fim.max_tokens options) 1000;
     Fim.body_stop := Fim.stop options |}.

(** [fimCompletion(prompt, options = {})]; the [console.error] traces are
    left out. *)
Definition fimCompletion (net : Network) (this : MistralAPI)
    (prompt : jstring) (options : Fim.Options) (w : World)
    : Result CompletionResponse * MistralAPI * World :=
  let requestBody := FimPayload (fimRequestBody prompt options) in
  let (settled, w) := post net (lit "/fim/completions") requestBody w in
  let tried :=
    match settled with
    | Fulfilled response =>
        match Zod.parse CompletionResponseSchema (data response) with
        | inr validatedResponse => inr validatedResponse
        | inl error => inl (CaughtOther error)
        end
    | Rejected error => inl error
    end in
  match tried with
  | inr validatedResponse => (ret validatedResponse, this, w)
  | inl error => (throw (fim_catch error), this, w)
  end.

(** [enforceRateLimit()], the private pacing helper: one run from start
    to end, with no other run of it in between. *)
Definition enforceRateLimit (this : MistralAPI) (w : World) : MistralAPI * World :=
  let now_ := now w in
  let timeSinceLastRequest := (now_ - lastRequestTime this)%Z in
  let w :=
    if (timeSinceLastRequest <? minRequestInterval this)%Z
    then setTimeout (minRequestInterval this - timeSinceLastRequest) w
    else w in
  ({| apiKey := apiKey this; client := client this;
      lastRequestTime := now w;
      minRequestInterval := minRequestInterval this |}, w).

(** ** The singleton accessor *)

(** The module's objects: every [MistralAPI] constructed so far, each
    known by its position, and the module variable [instance]. *)
Record Process := { objects : list MistralAPI; instance : option nat }.

Definition initial_process : Process := {| objects := []; instance := None |}.

(** [getMistralAPI(apiKey)]: a reference to the instance, or the
    constructor's exception. *)
Definition getMistralAPI (apiKey : jstring) (p : Process) : Result nat * Process :=
  match instance p with
  | None =>
      match new_MistralAPI apiKey with
      | inl e => (throw e, p)
      | inr o =>
          let r := length (objects p) in
          (ret r, {| objects := objects p ++ [o]; instance := Some r |})
      end
  | Some r => (ret r, p)
  end.

(** A run of accessor calls, one per credential, in order. *)
Fixpoint getMistralAPI_all (keys : list jstring) (p : Process)
    : list (Result nat) * Process :=
  match keys with
  | [] => ([], p)
  | k :: rest =>
      let (r, p') := getMistralAPI k p in
      let (rs, p'') := getMistralAPI_all rest p' in
      (r :: rs, p'')
  end.

(* ===================================================================== *)
(** * Regular expressions: the backtracking matcher of ECMAScript on the
      fragment the extractor uses *)
(* ===================================================================== *)

Module Regex.

(** A pattern is a sequence of atoms: a literal code unit, a character
    class, a starred class (greedy [p*] or lazy [p*?]) and the two
    parentheses of a capturing group. *)
Inductive Atom :=
| Lit (c : N)
| Class (p : N -> bool)
| Star (greedy : bool) (p : N -> bool)
| Open
| Close.

(** The text of the group being matched, if one is open, and the groups
    already closed, in order. *)
Record Captures := { opened : option jstring; closed : list jstring }.

Definition no_captures : Captures := {| opened := None; closed := [] |}.

Definition consume (c : N) (st : Captures) : Captures :=
  {| opened := option_map (fun g => g ++ [c]) (opened st);
     closed := closed st |}.

Definition open_group (st : Captures) : Captures :=
  {| opened := Some []; closed := closed st |}.

Definition close_group (st : Captures) : Captures :=
  match opened st with
  | Some g => {| opened := None; closed := closed st ++ [g] |}
  | None => st
  end.

(** [run r s st]: match the pattern [r] at the head of [s]; the result
    is the first success in backtracking order, with the input left
    over.  A greedy star tries one more code unit before it tries the
    rest of the pattern, a lazy star the other way round. *)
Fixpoint run (r : list Atom) : jstring -> Captures -> option (jstring * Captures) :=
  match r with
  | [] => fun s st => Some (s, st)
  | Lit c :: r' => fun s st =>
      match s with
      | x :: s' => if (x =? c)%N then run r' s' (consume x st) else None
      | [] => None
      end
  | Class p :: r' => fun s st =>
      match s with
      | x :: s' => if p x then run r' s' (consume x st) else None
      | [] => None
      end
  | Star true p :: r' =>
      fix more (s : jstring) (st : Captures) {struct s} :=
        match s with
        | x :: s' =>
            if p x then
              match more s' (consume x st) with
              | Some m => Some m
              | None => run r' s st
              end
            else run r' s st
        | [] => run r' s st
        end
  | Star false p :: r' =>
      fix more (s : jstring) (st : Captures) {struct s} :=
        match run r' s st with
        | Some m => Some m
        | None =>
            match s with
            | x :: s' => if p x then more s' (consume x st) else None
            | [] => None
            end
        end
  | Open :: r' => fun s st => run r' s (open_group st)
  | Close :: r' => fun s st => run r' s (close_group st)
  end.

(** One match: where it starts (the input from there on), the input
    left after it, and its groups. *)
Record Match := { at_ : jstring; rest : jstring; groups : list jstring }.

(** [exec] from the head of [s]: the leftmost position the pattern
    matches at. *)
Fixpoint search (r : list Atom) (s : jstring) : option Match :=
  match run r s no_captures with
  | Some (s', st) => Some {| at_ := s; rest := s'; groups := closed st |}
  | None =>
      match s with
      | [] => None
      | _ :: s' => search r s'
      end
  end.

(** The loop of [matchAll] with the [g] flag: the next search starts
    where the last match ended, one code unit further when that match
    was empty. *)
Fixpoint matchAll_from (fuel : nat) (r : list Atom) (s : jstring) : list Match :=
  match fuel with
  | O => []
  | S fuel =>
      match search r s with
      | None => []
      | Some m =>
          m :: (if (length (rest m) =? length (at_ m))%nat
                then match rest m with
                     | [] => []
                     | _ :: s' => matchAll_from fuel r s'
                     end
                else matchAll_from fuel r (rest m))
      end
  end.

(** [[...s.matchAll(r)]]; every round but the last consumes input, so
    [length s + 1] rounds are enough. *)
Definition matchAll (r : list Atom) (s : jstring) : list Match :=
  matchAll_from (S (length s)) r s.

(** [match[i]] for [i >= 1]. *)
Definition group (i : nat) (m : Match) : option jstring :=
  nth_error (groups m) (i - 1).

End Regex.

(* ===================================================================== *)
(** * The code-block extractor ([formatResponse] in [src/index.ts]) *)
(* ===================================================================== *)

(** [/```[\w]*\n([\s\S]*?)```/g] *)
Definition codeBlockRegex : list Regex.Atom :=
  [ Regex.Lit BACKTICK; Regex.Lit BACKTICK; Regex.Lit BACKTICK;
    Regex.Star true is_word;
    Regex.Lit LF;
    Regex.Open; Regex.Star false is_any; Regex.Close;
    Regex.Lit BACKTICK; Regex.Lit BACKTICK; Regex.Lit BACKTICK ].

(** [match[1].trim()]; a group that did not take part is [undefined], and
    calling [trim] on it throws a [TypeError]. *)
Definition trimmed_group (m : Regex.Match) : Result jstring :=
  match Regex.group 1 m with
  | Some g => ret (trim g)
  | None => throw (Error [Text (lit "Cannot read properties of undefined (reading 'trim')")])
  end.

(** [matches.map(f)] for an [f] that may throw. *)
Fixpoint map_result {A B} (f : A -> Result B) (l : list A) : Result (list B) :=
  match l with
  | [] => ret []
  | x :: l' =>
      match f x with
      | inl e => throw e
      | inr y =>
          match map_result f l' with
          | inl e => throw e
          | inr ys => ret (y :: ys)
          end
      end
  end.

Definition formatResponse (completion : CompletionResponse) : Result jstring :=
  match choices completion with
  | [] => throw (Error [Text (lit "Invalid completion response")])
  | choice0 :: _ =>
      let content := content (message choice0) in
      let matches := Regex.matchAll codeBlockRegex content in
      if (0 <? length matches)%nat
      then
        match map_result trimmed_group matches with
        | inl e => throw e
        | inr blocks => ret (join (nl ++ nl) blocks)
        end
      else ret content
  end.

(** [chatCompletion] and [fimCompletion] seen from outside: the result,
    and the times the requests of a run left at. *)
Definition result_of {A} (r : Result A * MistralAPI * World) : Result A :=
  fst (fst r).
Definition client_of {A} (r : Result A * MistralAPI * World) : MistralAPI :=
  snd (fst r).
Definition world_of {A} (r : Result A * MistralAPI * World) : World :=
  snd r.

(** A text free of backticks. *)
Definition no_backtick (s : jstring) : bool :=
  forallb (fun c => negb (c =? BACKTICK)%N) s.

(** The pieces the template of [createPrompt] is laid out from: the
    introduction line, one fenced block, and the text between the two
    blocks of a fill-in-the-middle prompt. *)
Definition prompt_intro (language : option jstring) : jstring :=
  lit "Here is the"
    ++ (if opt_truthy language then lit " " ++ or_empty language else [])
    ++ lit " code:" ++ nl ++ nl.

Definition fenced (language : option jstring) (body : jstring) : jstring :=
  lit "```" ++ or_empty language ++ nl ++ body ++ nl ++ lit "```".

Definition connective : jstring :=
  nl ++ nl ++ lit "The code should end with:" ++ nl ++ nl.

(** ** Names for the thrown values

    The code throws plain [Error]s; the kinds below are told apart by
    their messages. *)

Definition ConfigError : Thrown :=
  Error [Text (lit "API key cannot be empty")].

Definition AuthError : Thrown :=
  Error [Text (lit "Authentication failed. Please check your API key.")].

Definition RateLimitError : Thrown :=
  Error [Text (lit "Rate limit exceeded. Please try again later.")].

Definition ServerError : Thrown :=
  Error [Text (lit "Mistral API server error. Please try again later.")].

(** [`Mistral API error (${status}): ${message}`] *)
Definition UnclassifiedApiError (status message : jsval) : Thrown :=
  Error [Text (lit "Mistral API error ("); Subst status;
         Text (lit "): "); Subst message].

(** The same with [`\nResponse: ${JSON.stringify(data)}`] appended, as
    [fimCompletion] throws it. *)
Definition UnclassifiedFimError (status message data : jsval) : Thrown :=
  Error [Text (lit "Mistral API error ("); Subst status;
         Text (lit "): "); Subst message; Text nl;
         Text (lit "Response: "); SubstJSON data].

Definition EmptyCompletionError : Thrown :=
  Error [Text (lit "Invalid completion response")].

(** The status codes 500 to 599. *)
Definition is_5xx (s : Z) : bool := ((500 <=? s) && (s <=? 599))%Z.

(** An [AxiosError] for a response with the given status and body. *)
Definition http_error (s : Z) (msg : jstring) (body : jsval) : AxiosError :=
  {| error_message := msg; response := Some {| status := s; data := body |} |}.

(** A network on which every request is rejected with the same error, and
    one on which every request is answered with the same body. *)
Definition failing_with (e : AxiosError) : Network :=
  fun _ _ => Rejected (CaughtAxios e).

Definition answering (body : jsval) : Network :=
  fun _ _ => Fulfilled {| status := 200; data := body |}.

(** The times the requests of a world left at. *)
Definition start_times (w : World) : list Z := map sent_at (outbox w).

(** An options object built for [chatCompletion], hence with a [model]
    key, handed to [fimCompletion] together with a suffix: the keys
    [fimCompletion] reads are those of [Fim.Options], and [model] is not
    among them. *)
Definition fim_view (options : Chat.Options) (suffix : option jstring)
    : Fim.Options :=
  {| Fim.suffix := suffix;
     Fim.temperature := Chat.temperature options;
     Fim.top_p := Chat.top_p options;
     Fim.max_tokens := Chat.max_tokens options;
     Fim.stop := Chat.stop options |}.

(** The request [fimCompletion] and [chatCompletion] put on the wire. *)
Definition fim_request (at_time : Z) (prompt : jstring) (options : Fim.Options) : Sent :=
  {| sent_at := at_time; sent_to := lit "/fim/completions";
     sent_body := FimPayload (fimRequestBody prompt options) |}.

Definition chat_request (at_time : Z) (messages : list Message)
    (options : Chat.Options) : Sent :=
  {| sent_at := at_time; sent_to := lit "/chat/completions";
     sent_body := ChatPayload (chatRequestBody messages options) |}.

(** The client [new MistralAPI(credential)] builds when it succeeds. *)
Definition built_client (credential : jstring) : MistralAPI :=
  {| apiKey := trim credential;
     client :=
       {| baseURL := lit "https://api.mistral.ai/v1";
          headers := [ (lit "Authorization", lit "Bearer " ++ trim credential);
                       (lit "Content-Type", lit "application/json");
                       (lit "Accept", lit "application/json") ];
          timeout := 30000 |};
     lastRequestTime := 0;
     minRequestInterval := 100 |}.

(** A world whose clock reads [t] and where nothing was sent yet. *)
Definition world_at (t : Z) : World := {| now := t; outbox := [] |}.

(** ** Structural validity of a response body

    The shape the schema asks for, read off field by field: which keys
    must be there and what type their values must have. *)

Definition is_string (v : jsval) : bool :=
  match v with Some (JStr _) => true | _ => false end.

Definition is_number (v : jsval) : bool :=
  match v with Some (JNum _) => true | _ => false end.

Definition message_shaped (v : jsval) : bool :=
  match v with
  | Some (JObj o) =>
      is_string (lookup (lit "role") o) && is_string (lookup (lit "content") o)
  | _ => false
  end.

Definition choice_shaped (v : jsval) : bool :=
  match v with
  | Some (JObj o) =>
      is_number (lookup (lit "index") o)
      && message_shaped (lookup (lit "message") o)
      && match lookup (lit "finish_reason") o with
         | None => true
         | present => is_string present
         end
  | _ => false
  end.

Definition usage_shaped (v : jsval) : bool :=
  match v with
  | Some (JObj o) =>
      is_number (lookup (lit "prompt_tokens") o)
      && is_number (lookup (lit "completion_tokens") o)
      && is_number (lookup (lit "total_tokens") o)
  | _ => false
  end.

Definition structurally_valid (v : jsval) : bool :=
  match v with
  | Some (JObj o) =>
      is_string (lookup (lit "id") o)
      && is_string (lookup (lit "object") o)
      && is_number (lookup (lit "created") o)
      && is_string (lookup (lit "model") o)
      && match lookup (lit "choices") o with
         | Some (JArr cs) => forallb (fun c => choice_shaped (Some c)) cs
         | _ => false
         end
      && usage_shaped (lookup (lit "usage") o)
  | _ => false
  end.

(** Whether a parse went through. *)
Definition succeeds {E A} (r : E + A) : bool :=
  match r with inr _ => true | inl _ => false end.

(** A body that is valid but for its choices, of which it has none. *)
Definition zero_choice_body : json :=
  JObj [ (lit "id", JStr (lit "cmpl-1"));
         (lit "object", JStr (lit "chat.completion"));
         (lit "created", JNum 1);
         (lit "model", JStr (lit "codestral-latest"));
         (lit "choices", JArr []);
         (lit "usage", JObj [ (lit "prompt_tokens", JNum 3);
                              (lit "completion_tokens", JNum 0);
                              (lit "total_tokens", JNum 3) ]) ].

(** A body with one choice and no [usage]. *)
Definition body_without_usage : json :=
  JObj [ (lit "id", JStr (lit "cmpl-2"));
         (lit "object", JStr (lit "chat.completion"));
         (lit "created", JNum 1);
         (lit "model", JStr (lit "codestral-latest"));
         (lit "choices",
          JArr [ JObj [ (lit "index", JNum 0);
                        (lit "message",
                         JObj [ (lit "role", JStr (lit "assistant"));
                                (lit "content", JStr (lit "ok")) ]) ] ]) ].

(** A failed parse reports at least one issue. *)
Definition reports {A} (s : Zod.Schema A) : Prop :=
  forall p v e, s p v = inl e -> e <> [].

Definition shape_reports {A} (sh : Zod.Shape A) : Prop :=
  forall o p e, sh o p = inl e -> e <> [].

(** ** Fenced blocks, described on the text

    What the extractor's pattern recognises, said without the matcher: a
    block is three backticks, a run of word characters (the tag, maybe
    empty), a line feed, and then the inner text up to the next three
    backticks. *)

Definition starts_with_fence (s : jstring) : bool :=
  match s with
  | a :: b :: c :: _ => ((a =? BACKTICK) && (b =? BACKTICK) && (c =? BACKTICK))%N
  | _ => false
  end.

(** The text before the first triple backtick of [s] and the text after
    it; [None] when [s] has no triple backtick. *)
Fixpoint first_fence (s : jstring) : option (jstring * jstring) :=
  match s with
  | [] => None
  | x :: s' =>
      if starts_with_fence s then Some ([], skipn 3 s)
      else match first_fence s' with
           | Some (body, rest) => Some (x :: body, rest)
           | None => None
           end
  end.

(** The block that starts at the head of [s], if one does: its inner text
    and the text after its closing fence. *)
Definition block_at (s : jstring) : option (jstring * jstring) :=
  if starts_with_fence s then
    match dropWhile is_word (skipn 3 s) with
    | x :: s' => if (x =? LF)%N then first_fence s' else None
    | [] => None
    end
  else None.

(** [FencedText s blocks]: the text [s] is made of the fenced blocks
    whose inner texts are [blocks], in this order, each preceded by text
    without triple backtick, and followed at the end by such text. *)
Inductive FencedText : jstring -> list jstring -> Prop :=
| fenced_none s :
    first_fence s = None ->
    FencedText s []
| fenced_block pre tag x body rest blocks :
    first_fence pre = None ->
    forallb is_word tag = true ->
    first_fence x = Some (body, rest) ->
    FencedText rest blocks ->
    FencedText (pre ++ lit "```" ++ tag ++ nl ++ x) (body :: blocks).

(** A completion whose only choice says [text]. *)
Definition completion_saying (text : jstring) : CompletionResponse :=
  {| id := lit "cmpl-3"; object := lit "chat.completion"; created := 1;
     model := lit "codestral-latest";
     choices := [ {| index := 0;
                     message := {| role := lit "assistant"; content := text |};
                     finish_reason := Some (lit "stop") |} ];
     usage := {| prompt_tokens := 1; completion_tokens := 1; total_tokens := 2 |} |}.

(** Code that quotes a fenced block, as a documentation comment may. *)
Definition code_with_fence : jstring :=
  lit "/* usage:" ++ nl ++ lit "```" ++ nl ++ lit "f(1)" ++ nl ++ lit "```" ++ nl
    ++ lit "*/" ++ nl ++ lit "function f(x) {".

(** What may stand on the line of an opening fence, after it: no line
    feed and no backtick. *)
Definition on_fence_line (tag : jstring) : bool :=
  forallb (fun c => negb (c =? LF)%N && negb (c =? BACKTICK)%N) tag.

(** Texts used as examples: a block tagged [c++], two such blocks with a
    line between them, a block with line ends of carriage return and line
    feed, and two blocks with text around them. *)
Definition cpp_block_text : jstring :=
  lit "```c++" ++ nl ++ lit "int x;" ++ nl ++ lit "```".

Definition two_cpp_blocks_text : jstring :=
  lit "```c++" ++ nl ++ lit "int a;" ++ nl ++ lit "```" ++ nl
    ++ lit "Then:" ++ nl
    ++ lit "```c++" ++ nl ++ lit "int b;" ++ nl ++ lit "```".

Definition crlf_block_text : jstring :=
  lit "```js" ++ [13%N; LF] ++ lit "let a;" ++ [13%N; LF] ++ lit "```".

Definition two_blocks_text : jstring :=
  lit "x ```js" ++ nl ++ lit " A " ++ nl ++ lit "``` mid ```" ++ nl ++ lit "B```".

(** The error of a response with status 503 and no body. *)
Definition error_503 : AxiosError :=
  http_error 503 (lit "Request failed with status code 503") None.

(** The error of a response with status 503 and a message in its body. *)
Definition error_503_with_message : AxiosError :=
  http_error 503 (lit "Request failed with status code 503")
    (Some (JObj [ (lit "error",
                   JObj [ (lit "message", JStr (lit "Service Unavailable")) ]) ])).

(** [Blocks s blocks]: reading [s] from left to right, [blocks] are the
    inner texts of the blocks met: the first block is the one that
    starts at the first position where one starts at all, and the reading
    goes on after its closing fence. *)
Inductive Blocks : jstring -> list jstring -> Prop :=
| blocks_none s :
    (forall i, block_at (skipn i s) = None) ->
    Blocks s []
| blocks_cons pre s body rest blocks :
    (forall i, i < length pre -> block_at (skipn i (pre ++ s)) = None) ->
    block_at s = Some (body, rest) ->
    Blocks rest blocks ->
    Blocks (pre ++ s) (body :: blocks).

(* ===================================================================== *)
(** * The rest of the client and its callers *)
(* ===================================================================== *)

(** ** The credential probe ([MistralAPI.validateApiKey]) *)

(** The remote service, for a GET: how the request a configured client
    makes to a path settles. *)
Definition Probe := AxiosConfig -> jstring -> Settled.

(** [validateApiKey()]; the [console.error] traces are left out. *)
Definition validateApiKey (probe : Probe) (this : MistralAPI) : Result bool :=
  match probe (client this) (lit "/models") with
  | Fulfilled response => ret true
  | Rejected (CaughtAxios error) =>
      match status_of error with
      | Some 401%Z =>
          throw (Error [Text (lit "Invalid API key. Please check your Mistral API key.")])
      | _ =>
          throw (Error [Text (lit "API validation failed: ");
                        Subst (Some (JStr (error_message error)))])
      end
  | Rejected (CaughtOther error) => throw error
  end.

(** ** The tool handler ([src/index.ts]) *)

(** The issues [CodeCompletionSchema] can raise: those of [z.string()],
    and the two of [z.enum([...])], a value that is no string and a
    string that is none of the options. *)
Inductive ArgIssue :=
| arg_invalid_type (issue : ZodIssue)
| arg_enum_type (received : ZodParsedType) (path : list PathSeg)
| arg_invalid_enum_value (received : jstring) (path : list PathSeg).

(** [z.infer<typeof CodeCompletionSchema>] *)
Record CodeCompletionParams := {
  param_code : jstring;
  param_language : option jstring;
  param_task : Task
}.

(** [z.enum(['complete', 'fix', 'test'])] *)
Definition task_enum (p : list PathSeg) (v : jsval) : list ArgIssue + Task :=
  match v with
  | Some (JStr s) =>
      if JsString.eqb s (lit "complete") then inr complete
      else if JsString.eqb s (lit "fix") then inr fix_
      else if JsString.eqb s (lit "test") then inr test
      else inl [arg_invalid_enum_value s p]
  | _ => inl [arg_enum_type (Zod.getParsedType v) p]
  end.

(** The issues of a key, or none. *)
Definition issues_of {E A} (r : list E + A) : list E :=
  match r with inl e => e | inr _ => [] end.

Definition lift_issues {A} (r : list ZodIssue + A) : list ArgIssue + A :=
  match r with
  | inl e => inl (map arg_invalid_type e)
  | inr a => inr a
  end.

(** [CodeCompletionSchema.parse(args)]: the keys are parsed in the order
    of the shape and the issues of all of them are collected. *)
Definition CodeCompletionSchema (args : jsval)
    : list ArgIssue + CodeCompletionParams :=
  match args with
  | Some (JObj o) =>
      let code := lift_issues (Zod.string [Key (lit "code")] (lookup (lit "code") o)) in
      let language :=
        lift_issues (Zod.optional Zod.string [Key (lit "language")]
                       (lookup (lit "language") o)) in
      let task := task_enum [Key (lit "task")] (lookup (lit "task") o) in
      match code, language, task with
      | inr c, inr l, inr t =>
          inr {| param_code := c; param_language := l; param_task := t |}
      | _, _, _ => inl (issues_of code ++ issues_of language ++ issues_of task)
      end
  | _ =>
      inl [ arg_invalid_type
              {| expected := zt_object; received := Zod.getParsedType args;
                 path := [] |} ]
  end.

(** What the handler caught: the [ZodError] of the arguments, or a value
    thrown by the client or by [formatResponse]. *)
Inductive ToolFailure :=
| BadArguments (issues : list ArgIssue)
| Failed (error : Thrown).

(** The text of a result: the formatted response, or
    [`Error: ${error.message}`].  Every value thrown here is an [Error],
    so the other arm of the handler's test, the text for a thrown value
    that is none, never shows. *)
Inductive ToolText :=
| Formatted (text : jstring)
| ErrorMessage (error : ToolFailure).

(** [{ content: [{ type: "text", text }], isError? }] *)
Record CallToolResult := { tool_text : ToolText; isError : option bool }.

Definition error_result (error : ToolFailure) : CallToolResult :=
  {| tool_text := ErrorMessage error; isError := Some true |}.

(** The [CallToolRequestSchema] handler, on the tool name and the
    arguments of the request, with the module's [mistralApi]. *)
Definition callTool (net : Network) (mistralApi : MistralAPI)
    (name : jstring) (args : jsval) (w : World)
    : Result CallToolResult * MistralAPI * World :=
  if JsString.eqb name (lit "code_completion") then
    match CodeCompletionSchema args with
    | inl issues => (ret (error_result (BadArguments issues)), mistralApi, w)
    | inr params =>
        let messages :=
          createPrompt (param_code params) (param_language params)
                       (param_task params) None in
        let '(completion, mistralApi, w) :=
          chatCompletion net mistralApi messages Chat.no_options w in
        match completion with
        | inl error => (ret (error_result (Failed error)), mistralApi, w)
        | inr completion =>
            match formatResponse completion with
            | inl error => (ret (error_result (Failed error)), mistralApi, w)
            | inr formattedResponse =>
                (ret {| tool_text := Formatted formattedResponse;
                        isError := None |}, mistralApi, w)
            end
        end
    end
  else
    (throw (Error [Text (lit "Unknown tool: "); Subst (Some (JStr name))]),
     mistralApi, w).

(** ** Start-up ([src/index.ts]) *)

(** The two ways [envSchema.parse(process.env)] fails on
    [MISTRAL_API_KEY]: the variable is not set, or it is the empty
    string. *)
Inductive EnvIssue := env_required | env_too_small.

(** [z.object({ MISTRAL_API_KEY: z.string().min(1) })] on the
    environment, of which only that variable is read. *)
Definition envSchema (MISTRAL_API_KEY : option jstring) : EnvIssue + jstring :=
  match MISTRAL_API_KEY with
  | None => inl env_required
  | Some [] => inl env_too_small
  | Some key => inr key
  end.

(** How the module initialisation ends: the [ZodError] of the environment
    escapes, or the [catch] clause logs the error and calls
    [process.exit(1)], or the server goes on with [mistralApi] bound. *)
Inductive Startup :=
| Uncaught (issue : EnvIssue)
| Exit1 (logged : Thrown)
| Serving (mistralApi : nat).

(** The object a reference of the accessor stands for; the reference the
    accessor returns is always bound. *)
Definition deref (p : Process) (r : nat) (fresh : MistralAPI) : MistralAPI :=
  nth r (objects p) fresh.

Definition startup (MISTRAL_API_KEY : option jstring) (probe : Probe)
    (p : Process) : Startup * Process :=
  match envSchema MISTRAL_API_KEY with
  | inl issue => (Uncaught issue, p)
  | inr key =>
      match getMistralAPI key p with
      | (inl error, p) => (Exit1 error, p)
      | (inr mistralApi, p) =>
          match validateApiKey probe (deref p mistralApi (built_client key)) with
          | inl error => (Exit1 error, p)
          | inr _ => (Serving mistralApi, p)
          end
      end
  end.

(** ** The earlier prompt builder ([src/unnamed/part_000]) *)

Module Legacy.

(** The [task] parameter: ['complete' | 'fix' | 'test']. *)
Inductive Task := complete | fix_ | test.

Definition systemPrompts (task : Task) : jstring :=
  match task with
  | complete => lit "You are an expert programmer. Continue or complete the provided code according to best practices."
  | fix_ => lit "You are an expert programmer. Analyze the code for bugs and provide a corrected version with explanations of the fixes."
  | test => lit "You are an expert programmer. Generate comprehensive unit tests for the provided code using appropriate testing frameworks."
  end.

Definition createPrompt (code : jstring) (language : option jstring)
    (task : Task) : list Message :=
  let langStr :=
    if opt_truthy language then lit " " ++ or_empty language else [] in
  [ {| role := lit "system"; content := systemPrompts task |};
    {| role := lit "user";
       content :=
         lit "Here is the" ++ langStr ++ lit " code:" ++ nl ++ nl
           ++ lit "```" ++ or_empty language ++ nl ++ code ++ nl ++ lit "```" |} ].

End Legacy.

(** The task of the later builder that a task of the earlier one is. *)
Definition later_task (task : Legacy.Task) : Task :=
  match task with
  | Legacy.complete => complete
  | Legacy.fix_ => fix_
  | Legacy.test => test
  end.

(** ** A caller of the client: the funding search of
       [BusinessPlanMistralAPI] *)

Record BusinessPlanData := {
  businessName : jstring;
  businessIdea : jstring;
  targetCustomers : jstring;
  marketingChannels : jstring;
  businessStage : jstring;
  investment : jstring;
  teamStructure : jstring;
  location : jstring;
  needsFunding : jstring;
  fundingTypes : option (list jstring)
}.

Definition createFundingSearchPrompt (businessData : BusinessPlanData)
    (fundingTypes : list jstring) (location : jstring) : list Message :=
  [ {| role := lit "system";
       content := lit "You are a funding specialist with extensive knowledge of grants, loans, and investment opportunities. Provide specific, actionable funding recommendations based on business type and location." |};
    {| role := lit "user";
       content :=
         lit "Find specific funding opportunities for:" ++ nl
         ++ nl
         ++ lit "**Business:**" ++ nl
         ++ lit "- " ++ businessName businessData ++ lit ": "
              ++ businessIdea businessData ++ nl
         ++ lit "- Location: " ++ location ++ nl
         ++ lit "- Investment Needed: " ++ investment businessData ++ nl
         ++ lit "- Business Stage: " ++ businessStage businessData ++ nl
         ++ nl
         ++ lit "**Funding Types Requested:**" ++ nl
         ++ join (lit ", ") fundingTypes ++ nl
         ++ nl
         ++ lit "**Requirements:**" ++ nl
         ++ lit "1. Specific grant programs (federal, state, local)" ++ nl
         ++ lit "2. SBA loan programs and requirements" ++ nl
         ++ lit "3. Industry-specific funding opportunities" ++ nl
         ++ lit "4. Location-based incentives and programs" ++ nl
         ++ lit "5. Angel investor and VC opportunities" ++ nl
         ++ lit "6. Crowdfunding platforms suitable for this business" ++ nl
         ++ lit "7. Application requirements and deadlines" ++ nl
         ++ lit "8. Funding amounts and terms" ++ nl
         ++ lit "9. Eligibility criteria" ++ nl
         ++ lit "10. Contact information and next steps" ++ nl
         ++ nl
         ++ lit "Provide real, specific funding sources with details, not generic advice." |} ].

(** The object [searchFundingOpportunities] returns. *)
Record FundingSearch := {
  fundingOpportunities : jstring;
  search_location : jstring;
  businessType : jstring;
  fundingTypesSearched : list jstring;
  searchDate : jstring
}.

(** [{ temperature: 0.3, max_tokens: 2000 }] *)
Definition funding_options : Chat.Options :=
  {| Chat.model := None; Chat.temperature := Some (3 # 10)%Q;
     Chat.top_p := None; Chat.max_tokens := Some 2000%Q; Chat.stop := None |}.

Section FundingSearch.

(** [Date.prototype.toISOString], on the time value of the date. *)
Variable toISOString : Z -> jstring.

(** [searchFundingOpportunities(businessData, fundingTypes, location)],
    on the client the object refers to; [took] is the time, in
    milliseconds, that the awaited [chatCompletion] takes, so that
    [new Date()] is read that much after the request has left.  Reading
    [choices[0].message] of a response without choices throws a
    [TypeError], whose message is worded by the engine. *)
Definition searchFundingOpportunities (net : Network) (mistralAPI : MistralAPI)
    (businessData : BusinessPlanData) (fundingTypes : list jstring)
    (location : jstring) (took : Z) (w : World)
    : Result FundingSearch * MistralAPI * World :=
  let prompt := createFundingSearchPrompt businessData fundingTypes location in
  let '(response, mistralAPI, w) :=
    chatCompletion net mistralAPI prompt funding_options w in
  let w := elapse took w in
  match response with
  | inl error => (throw error, mistralAPI, w)
  | inr response =>
      match choices response with
      | [] =>
          (throw (Error [Text (lit "Cannot read properties of undefined (reading 'message')")]),
           mistralAPI, w)
      | choice0 :: _ =>
          (ret {| fundingOpportunities := content (message choice0);
                  search_location := location;
                  businessType := businessIdea businessData;
                  fundingTypesSearched := fundingTypes;
                  searchDate := toISOString (now w) |},
           mistralAPI, w)
      end
  end.

End FundingSearch.

(** The four strings of the [task] union. *)
Definition task_name (task : Task) : jstring :=
  match task with
  | complete => lit "complete"
  | fix_ => lit "fix"
  | test => lit "test"
  | fim => lit "fim"
  end.

(** The request the tool handler sends for accepted arguments. *)
Definition tool_request (at_time : Z) (params : CodeCompletionParams) : Sent :=
  chat_request at_time
    (createPrompt (param_code params) (param_language params)
                  (param_task params) None)
    Chat.no_options.

(** A structurally valid body whose only choice says [text]. *)
Definition body_saying (text : jstring) : json :=
  JObj [ (lit "id", JStr (lit "cmpl-3"));
         (lit "object", JStr (lit "chat.completion"));
         (lit "created", JNum 1);
         (lit "model", JStr (lit "codestral-latest"));
         (lit "choices",
          JArr [ JObj [ (lit "index", JNum 0);
                        (lit "message",
                         JObj [ (lit "role", JStr (lit "assistant"));
                                (lit "content", JStr text) ]);
                        (lit "finish_reason", JStr (lit "stop")) ] ]);
         (lit "usage", JObj [ (lit "prompt_tokens", JNum 1);
                              (lit "completion_tokens", JNum 1);
                              (lit "total_tokens", JNum 2) ]) ].

(** A network whose chat endpoint fails with [e] while every other
    endpoint answers. *)
Definition chat_endpoint_down (e : AxiosError) : Network :=
  fun url _ =>
    if JsString.eqb url (lit "/chat/completions")
    then Rejected (CaughtAxios e)
    else Fulfilled {| status := 200; data := Some (body_saying (lit "ok")) |}.

(** Arguments asking to fix the code [x]. *)
Definition fix_x_arguments : jsval :=
  Some (JObj [ (lit "code", JStr (lit "x")); (lit "task", JStr (lit "fix")) ]).

(** A probe that every client passes. *)
Definition probe_ok : Probe :=
  fun _ _ => Fulfilled {| status := 200; data := None |}.

(** Business data used as an example. *)
Definition bakery : BusinessPlanData :=
  {| businessName := lit "Loaf"; businessIdea := lit "a bakery";
     targetCustomers := lit "commuters"; marketingChannels := lit "flyers";
     businessStage := lit "idea"; investment := lit "20000";
     teamStructure := lit "two founders"; location := lit "Lyon";
     needsFunding := lit "yes"; fundingTypes := None |}.

(* ===================================================================== *)
(** * Proofs *)
(* ===================================================================== *)

(** ** The prompt builder *)

Lemma createPrompt_plain code language task suffix :
  is_fim task && opt_truthy suffix = false ->
  createPrompt code language task suffix =
    [ {| role := lit "system"; content := systemPrompts task |};
      {| role := lit "user";
         content := prompt_intro language ++ fenced language code |} ].
Proof.
  intros H. unfold createPrompt. rewrite H.
  unfold prompt_intro, fenced. now rewrite <- !app_assoc.
Qed.

Lemma createPrompt_fim_suffix code language s :
  s <> [] ->
  createPrompt code language fim (Some s) =
    [ {| role := lit "system"; content := systemPrompts fim |};
      {| role := lit "user";
         content := prompt_intro language ++ fenced language code
                      ++ connective ++ fenced language s |} ].
Proof.
  intros H. unfold createPrompt.
  destruct s as [|c s]; [congruence|].
  cbn [is_fim opt_truthy JsString.truthy andb or_empty].
  unfold prompt_intro, fenced, connective. now rewrite <- !app_assoc.
Qed.

Lemma count_fences_skip c s :
  c <> BACKTICK -> count_fences (c :: s) = count_fences s.
Proof.
  intros H. destruct s as [|b [|d s]]; try reflexivity.
  cbn [count_fences]. apply N.eqb_neq in H. now rewrite H.
Qed.

Lemma count_fences_clean s t :
  no_backtick s = true -> count_fences (s ++ t) = count_fences t.
Proof.
  induction s as [|c s IH]; intros H; [reflexivity|].
  cbn in H. apply andb_true_iff in H as [Hc Hs].
  cbn [app]. rewrite count_fences_skip; auto.
  intros ->. discriminate.
Qed.

Lemma count_fences_fence t :
  count_fences (lit "```" ++ t) = S (count_fences t).
Proof. reflexivity. Qed.

Lemma no_backtick_app s t :
  no_backtick s = true -> no_backtick t = true -> no_backtick (s ++ t) = true.
Proof. unfold no_backtick. intros. rewrite forallb_app. now apply andb_true_iff. Qed.

(** C6: for every task kind, code, language and suffix the prompt builder
    returns exactly two messages, the first with role system and the fixed
    prompt of the task, the second with role user; when the language is
    absent (or the empty string) the opening fence is followed at once by
    the line break, with nothing printed for the missing tag. *)
Theorem createPrompt_two_messages :
  (forall code language task suffix,
     exists userContent,
       createPrompt code language task suffix =
         [ {| role := lit "system"; content := systemPrompts task |};
           {| role := lit "user"; content := userContent |} ])
  /\ (forall code task suffix,
        createPrompt code None task suffix =
          [ {| role := lit "system"; content := systemPrompts task |};
            {| role := lit "user";
               content :=
                 lit "Here is the code:" ++ nl ++ nl
                   ++ lit "```" ++ nl ++ code ++ nl ++ lit "```"
                   ++ (if is_fim task && opt_truthy suffix
                       then nl ++ nl ++ lit "The code should end with:" ++ nl ++ nl
                              ++ lit "```" ++ nl ++ or_empty suffix ++ nl ++ lit "```"
                       else []) |} ]
        /\ createPrompt code (Some []) task suffix
           = createPrompt code None task suffix).
Proof.
  split.
  - intros. unfold createPrompt. eexists. reflexivity.
  - intros. split; [|reflexivity].
    unfold createPrompt. cbn [opt_truthy or_empty].
    destruct (is_fim task && opt_truthy suffix).
    + rewrite <- !app_assoc. reflexivity.
    + rewrite app_nil_r. reflexivity.
Qed.

(** ** The two completion calls, step by step *)

Lemma chatCompletion_world net this messages options w :
  world_of (chatCompletion net this messages options w) =
    {| now := now w;
       outbox := outbox w ++ [chat_request (now w) messages options] |}.
Proof.
  unfold chatCompletion, post, world_of. cbn.
  destruct (net _ _) as [r|e]; [destruct (Zod.parse _ _)|]; reflexivity.
Qed.

Lemma chatCompletion_client net this messages options w :
  client_of (chatCompletion net this messages options w) = this.
Proof.
  unfold chatCompletion, post, client_of. cbn.
  destruct (net _ _) as [r|e]; [destruct (Zod.parse _ _)|]; reflexivity.
Qed.

Lemma chatCompletion_result net this messages options w :
  result_of (chatCompletion net this messages options w) =
    match net (lit "/chat/completions")
              (ChatPayload (chatRequestBody messages options)) with
    | Fulfilled response =>
        match Zod.parse CompletionResponseSchema (data response) with
        | inr v => ret v
        | inl e => throw e
        end
    | Rejected error => throw (chat_catch error)
    end.
Proof.
  unfold chatCompletion, post, result_of. cbn.
  destruct (net _ _) as [r|e]; [destruct (Zod.parse _ _)|]; reflexivity.
Qed.

Lemma fimCompletion_world net this prompt options w :
  world_of (fimCompletion net this prompt options w) =
    {| now := now w;
       outbox := outbox w ++ [fim_request (now w) prompt options] |}.
Proof.
  unfold fimCompletion, post, world_of. cbn.
  destruct (net _ _) as [r|e]; [destruct (Zod.parse _ _)|]; reflexivity.
Qed.

Lemma fimCompletion_client net this prompt options w :
  client_of (fimCompletion net this prompt options w) = this.
Proof.
  unfold fimCompletion, post, client_of. cbn.
  destruct (net _ _) as [r|e]; [destruct (Zod.parse _ _)|]; reflexivity.
Qed.

Lemma fimCompletion_result net this prompt options w :
  result_of (fimCompletion net this prompt options w) =
    match net (lit "/fim/completions")
              (FimPayload (fimRequestBody prompt options)) with
    | Fulfilled response =>
        match Zod.parse CompletionResponseSchema (data response) with
        | inr v => ret v
        | inl e => throw (fim_catch (CaughtOther e))
        end
    | Rejected error => throw (fim_catch error)
    end.
Proof.
  unfold fimCompletion, post, result_of. cbn.
  destruct (net _ _) as [r|e]; [destruct (Zod.parse _ _)|]; reflexivity.
Qed.

(** ** Pacing *)

(** What one run of the helper does, alone and with a timer that fires on
    time: the clock it leaves is at least one interval after the previous
    request, and it is recorded. *)
Lemma enforceRateLimit_paces this w :
  let (this', w') := enforceRateLimit this w in
  lastRequestTime this' = now w'
  /\ (lastRequestTime this + minRequestInterval this <= now w')%Z
  /\ (now w <= now w')%Z
  /\ outbox w' = outbox w.
Proof.
  unfold enforceRateLimit.
  destruct (Z.ltb_spec (now w - lastRequestTime this) (minRequestInterval this));
    cbn; repeat split; lia.
Qed.

(** C1 (the code departs from it): neither call runs the pacing helper.
    Of two calls made on the same client [d] milliseconds apart, the
    second request leaves [d] milliseconds after the first, at the very
    same clock reading when [d] is 0, and the client's [lastRequestTime]
    is still what it was. *)
Theorem back_to_back_calls_unpaced net this w d :
  (forall m1 o1 m2 o2,
     let r1 := chatCompletion net this m1 o1 w in
     let r2 := chatCompletion net (client_of r1) m2 o2 (elapse d (world_of r1)) in
     start_times (world_of r2) = start_times w ++ [now w; now w + d]%Z
     /\ lastRequestTime (client_of r2) = lastRequestTime this)
  /\ (forall p1 o1 p2 o2,
        let r1 := fimCompletion net this p1 o1 w in
        let r2 := fimCompletion net (client_of r1) p2 o2 (elapse d (world_of r1)) in
        start_times (world_of r2) = start_times w ++ [now w; now w + d]%Z
        /\ lastRequestTime (client_of r2) = lastRequestTime this).
Proof.
  split; intros; subst r2 r1; unfold start_times.
  - rewrite !chatCompletion_world, !chatCompletion_client. cbn.
    rewrite <- app_assoc, map_app. auto.
  - rewrite !fimCompletion_world, !fimCompletion_client. cbn.
    rewrite <- app_assoc, map_app. auto.
Qed.

(** ** The fill-in-the-middle payload *)

(** C4: every [fimCompletion] call posts, to the fill-in-the-middle
    endpoint, a payload whose model is the primary identifier
    [codestral-latest], never the mamba one, whatever the options are
    (also when they come from an object that carries a [model]); its
    temperature is the caller's, and 0 when the caller gives none. *)
Theorem fimCompletion_payload net this prompt options w :
  let sent := fim_request (now w) prompt options in
  outbox (world_of (fimCompletion net this prompt options w)) = outbox w ++ [sent]
  /\ sent_to sent = lit "/fim/completions"
  /\ (exists b, sent_body sent = FimPayload b
        /\ Fim.body_model b = MISTRAL_MODELS CODESTRAL
        /\ Fim.body_model b <> MISTRAL_MODELS CODESTRAL_MAMBA
        /\ Fim.body_prompt b = prompt
        /\ Fim.body_temperature b =
             match Fim.temperature options with Some t => t | None => 0%Q end)
  /\ (forall (o : Chat.Options) suffix,
        Fim.body_model (fimRequestBody prompt (fim_view o suffix))
          = MISTRAL_MODELS CODESTRAL).
Proof.
  intros sent. rewrite fimCompletion_world. cbn.
  repeat split; auto.
  eexists; repeat split; try reflexivity.
  cbn. discriminate.
Qed.

(** ** Trimming *)

Lemma dropWhile_nil_iff p s : dropWhile p s = [] <-> forallb p s = true.
Proof.
  induction s as [|c s IH]; cbn; [tauto|].
  destruct (p c); cbn; [exact IH|]. split; discriminate.
Qed.

Lemma forallb_dropWhile p s : forallb p (dropWhile p s) = forallb p s.
Proof.
  induction s as [|c s IH]; cbn; [reflexivity|].
  destruct (p c) eqn:E; cbn; [exact IH|]. now rewrite E.
Qed.

Lemma forallb_rev (p : N -> bool) s : forallb p (rev s) = forallb p s.
Proof.
  induction s as [|c s IH]; cbn; [reflexivity|].
  rewrite forallb_app, IH. cbn. rewrite andb_true_r. apply andb_comm.
Qed.

Lemma trim_nil_iff s : trim s = [] <-> forallb is_space s = true.
Proof.
  unfold trim, trimEnd, trimStart.
  rewrite <- (forallb_dropWhile is_space s), <- forallb_rev, <- dropWhile_nil_iff.
  split; intros H.
  - apply (f_equal (@rev N)) in H. now rewrite rev_involutive in H.
  - now rewrite H.
Qed.

(** ** Construction *)

Lemma new_MistralAPI_cases credential :
  new_MistralAPI credential =
    (if forallb is_space credential
     then throw ConfigError
     else ret (built_client credential)).
Proof.
  unfold new_MistralAPI.
  destruct (forallb is_space credential) eqn:E.
  - apply trim_nil_iff in E. rewrite E. cbn. now rewrite orb_true_r.
  - assert (Ht : trim credential <> []).
    { intros H. apply trim_nil_iff in H. congruence. }
    destruct credential as [|c k]; [discriminate|].
    unfold built_client.
    destruct (trim (c :: k)) as [|c' k'] eqn:Et; [congruence|].
    reflexivity.
Qed.

(** C8: construction fails, with the error "API key cannot be empty",
    exactly when the credential is empty or made of whitespace only, which
    is when its trimmed form is empty; otherwise it succeeds, the stored
    credential is the trimmed input, the Authorization header is "Bearer "
    followed by it, and the timeout is 30000 ms. *)
Theorem constructor_contract credential :
  (forallb is_space credential = true <-> trim credential = [])
  /\ new_MistralAPI credential =
       (if forallb is_space credential
        then throw ConfigError
        else ret (built_client credential))
  /\ apiKey (built_client credential) = trim credential
  /\ In (lit "Authorization", lit "Bearer " ++ trim credential)
        (headers (client (built_client credential)))
  /\ timeout (client (built_client credential)) = 30000%Z.
Proof.
  split; [symmetry; apply trim_nil_iff|].
  split; [apply new_MistralAPI_cases|cbn; auto].
Qed.

(** ** The singleton accessor *)

Lemma getMistralAPI_all_reuse objs r keys :
  getMistralAPI_all keys {| objects := objs; instance := Some r |} =
    (map (fun _ => ret r) keys, {| objects := objs; instance := Some r |}).
Proof.
  induction keys as [|k keys IH]; [reflexivity|].
  cbn [getMistralAPI_all]. unfold getMistralAPI at 1. cbn [instance].
  now rewrite IH.
Qed.

(** C10: once the module holds an instance, every later call of the
    accessor returns the reference to that instance and allocates
    nothing, whatever credential it is given; after a first successful
    construction this holds for every later credential, the empty one
    included, and none of the later calls throws. *)
Theorem singleton_accessor :
  (forall objs r keys,
     getMistralAPI_all keys {| objects := objs; instance := Some r |} =
       (map (fun _ => ret r) keys, {| objects := objs; instance := Some r |}))
  /\ (forall key0 keys,
        trim key0 <> [] ->
        new_MistralAPI key0 = ret (built_client key0)
        /\ getMistralAPI_all (key0 :: keys) initial_process =
             (ret 0%nat :: map (fun _ => ret 0%nat) keys,
              {| objects := [built_client key0]; instance := Some 0%nat |})).
Proof.
  split; [apply getMistralAPI_all_reuse|].
  intros key0 keys Hk.
  assert (E : new_MistralAPI key0 = ret (built_client key0)).
  { rewrite new_MistralAPI_cases.
    destruct (forallb is_space key0) eqn:Hsp; [|reflexivity].
    destruct Hk. now apply trim_nil_iff. }
  split; [exact E|].
  cbn [getMistralAPI_all]. unfold getMistralAPI at 1.
  cbn [instance initial_process]. rewrite E. cbn [ret objects length app].
  now rewrite getMistralAPI_all_reuse.
Qed.

(** ** Classification of transport failures *)

(** Walks down the binary digits of a status code until the [switch] is
    decided. *)
Ltac decide_status p :=
  destruct p as [p|p|];
  try solve [reflexivity | cbn in *; intuition congruence];
  try decide_status p.

Lemma chat_catch_other error :
  status_of error <> Some 401%Z ->
  status_of error <> Some 429%Z ->
  status_of error <> Some 500%Z ->
  chat_catch (CaughtAxios error)
    = UnclassifiedApiError (status_val error) (message_of error).
Proof.
  unfold chat_catch, UnclassifiedApiError.
  destruct (status_of error) as [[|p|p]|]; try reflexivity.
  intros H1 H2 H3. decide_status p.
Qed.

Lemma fim_catch_other error :
  status_of error <> Some 401%Z ->
  status_of error <> Some 429%Z ->
  status_of error <> Some 500%Z ->
  fim_catch (CaughtAxios error)
    = UnclassifiedFimError (status_val error) (message_of error) (data_of error).
Proof.
  unfold fim_catch, UnclassifiedFimError.
  destruct (status_of error) as [[|p|p]|]; try reflexivity.
  intros H1 H2 H3. decide_status p.
Qed.

(** C2, amended: when the transport fails a call with an HTTP error, the
    call throws by status: 401 the authentication error, 429 the
    rate-limit error, 500 (and only 500) the server error, and every
    other status, or none, the unclassified error, which carries the
    status and the remote [error.message] when that is truthy, else the
    transport's own message ([fimCompletion] adds the serialised response
    body).  This holds for each of the two calls on its own, whatever the
    other endpoint does. *)
Theorem transport_failure_classification net this w error :
  let remote := get (lit "message") (get (lit "error") (data_of error)) in
  let message :=
    if truthy remote then remote else Some (JStr (error_message error)) in
  (forall messages options,
     net (lit "/chat/completions") (ChatPayload (chatRequestBody messages options))
       = Rejected (CaughtAxios error) ->
     let chat := result_of (chatCompletion net this messages options w) in
     (status_of error = Some 401%Z -> chat = throw AuthError)
     /\ (status_of error = Some 429%Z -> chat = throw RateLimitError)
     /\ (status_of error = Some 500%Z -> chat = throw ServerError)
     /\ (status_of error <> Some 401%Z ->
         status_of error <> Some 429%Z ->
         status_of error <> Some 500%Z ->
           chat = throw (UnclassifiedApiError (status_val error) message)))
  /\ (forall prompt foptions,
        net (lit "/fim/completions") (FimPayload (fimRequestBody prompt foptions))
          = Rejected (CaughtAxios error) ->
        let fim := result_of (fimCompletion net this prompt foptions w) in
        (status_of error = Some 401%Z -> fim = throw AuthError)
        /\ (status_of error = Some 429%Z -> fim = throw RateLimitError)
        /\ (status_of error = Some 500%Z -> fim = throw ServerError)
        /\ (status_of error <> Some 401%Z ->
            status_of error <> Some 429%Z ->
            status_of error <> Some 500%Z ->
              fim = throw (UnclassifiedFimError (status_val error) message
                             (data_of error)))).
Proof.
  intros remote message. split.
  - intros messages options Hc chat. subst chat.
    rewrite chatCompletion_result, Hc.
    repeat split; intros.
    1-3: unfold chat_catch; rewrite H; reflexivity.
    now rewrite chat_catch_other.
  - intros prompt foptions Hf fim. subst fim.
    rewrite fimCompletion_result, Hf.
    repeat split; intros.
    1-3: unfold fim_catch; rewrite H; reflexivity.
    now rewrite fim_catch_other.
Qed.

(** ** Schema validation *)

Section ZodCombinators.

Context {A B : Type}.

Lemma succeeds_string p v : succeeds (Zod.string p v) = is_string v.
Proof. destruct v as [[]|]; reflexivity. Qed.

Lemma succeeds_number p v : succeeds (Zod.number p v) = is_number v.
Proof. destruct v as [[]|]; reflexivity. Qed.

Lemma succeeds_optional (s : Zod.Schema A) p v :
  succeeds (Zod.optional s p v) =
    match v with None => true | _ => succeeds (s p v) end.
Proof.
  unfold Zod.optional. destruct v; [|reflexivity].
  destruct (s p (Some j)); reflexivity.
Qed.

Lemma succeeds_key (f : Zod.Shape (A -> B)) k (s : Zod.Schema A) o p :
  succeeds (Zod.key f k s o p) =
    succeeds (f o p) && succeeds (s (p ++ [Key k]) (lookup k o)).
Proof.
  unfold Zod.key. destruct (f o p), (s _ _); reflexivity.
Qed.

Lemma succeeds_object (sh : Zod.Shape A) p v :
  succeeds (Zod.object sh p v) =
    match v with Some (JObj o) => succeeds (sh o p) | _ => false end.
Proof. destruct v as [[]|]; reflexivity. Qed.

Lemma succeeds_items (s : Zod.Schema A) (P : json -> bool) p i l :
  (forall q x, succeeds (s q (Some x)) = P x) ->
  succeeds (Zod.items s p i l) = forallb P l.
Proof.
  intros H. revert i. induction l as [|x l IH]; intros i; [reflexivity|].
  cbn [Zod.items forallb]. rewrite <- H with (q := p ++ [Idx i]), <- (IH (S i)).
  destruct (s _ _), (Zod.items _ _ _ _); reflexivity.
Qed.

Lemma succeeds_array (s : Zod.Schema A) (P : json -> bool) p v :
  (forall q x, succeeds (s q (Some x)) = P x) ->
  succeeds (Zod.array s p v) =
    match v with Some (JArr l) => forallb P l | _ => false end.
Proof.
  intros H. destruct v as [[]|]; try reflexivity.
  cbn [Zod.array]. now apply succeeds_items.
Qed.

Lemma items_length (s : Zod.Schema A) p i l parsed :
  Zod.items s p i l = inr parsed -> length parsed = length l.
Proof.
  revert i parsed. induction l as [|x l IH]; intros i parsed; cbn [Zod.items].
  - now intros [= <-].
  - destruct (s _ _); destruct (Zod.items s p (S i) l) eqn:E; try discriminate.
    intros [= <-]. cbn. f_equal. eapply IH, E.
Qed.

Lemma key_inr (f : Zod.Shape (A -> B)) k (s : Zod.Schema A) o p b :
  Zod.key f k s o p = inr b ->
  exists g a, f o p = inr g /\ s (p ++ [Key k]) (lookup k o) = inr a /\ b = g a.
Proof.
  unfold Zod.key. destruct (f o p) as [|g], (s _ _) as [|a]; try discriminate.
  intros [= <-]. eauto.
Qed.

End ZodCombinators.

Lemma reports_optional {A} (s : Zod.Schema A) : reports s -> reports (Zod.optional s).
Proof.
  intros H p v e. unfold Zod.optional. destruct v; [|discriminate].
  destruct (s p (Some j)) eqn:E; [|discriminate]. intros [= <-]. eapply H, E.
Qed.

Lemma reports_items {A} (s : Zod.Schema A) : reports s -> forall p i l e,
  Zod.items s p i l = inl e -> e <> [].
Proof.
  intros H p i l. revert i. induction l as [|x l IH]; intros i e;
    cbn [Zod.items]; [discriminate|].
  destruct (s _ _) eqn:E1; destruct (Zod.items s p (S i) l) eqn:E2;
    intros [= <-].
  - apply H in E1. destruct l0; [congruence|discriminate].
  - eapply H, E1.
  - eapply IH, E2.
Qed.

Lemma reports_array {A} (s : Zod.Schema A) : reports s -> reports (Zod.array s).
Proof.
  intros H p v e. destruct v as [[]|]; cbn; try (intros [= <-]; discriminate).
  apply reports_items, H.
Qed.

Lemma reports_object {A} (sh : Zod.Shape A) : shape_reports sh -> reports (Zod.object sh).
Proof.
  intros H p v e. destruct v as [[]|]; cbn; try (intros [= <-]; discriminate).
  apply H.
Qed.

Lemma reports_string : reports Zod.string.
Proof. intros p v e. destruct v as [[]|]; cbn; intros [= <-]; discriminate. Qed.

Lemma reports_number : reports Zod.number.
Proof. intros p v e. destruct v as [[]|]; cbn; intros [= <-]; discriminate. Qed.

Lemma reports_shape {A} (a : A) : shape_reports (Zod.shape a).
Proof. intros o p e. discriminate. Qed.

Lemma reports_key {A B} (f : Zod.Shape (A -> B)) k (s : Zod.Schema A) :
  shape_reports f -> reports s -> shape_reports (Zod.key f k s).
Proof.
  intros Hf Hs o p e. unfold Zod.key.
  destruct (f o p) eqn:E1; destruct (s _ _) eqn:E2; intros [= <-].
  - apply Hf in E1. destruct l; [congruence|discriminate].
  - eapply Hf, E1.
  - eapply Hs, E2.
Qed.

Create HintDb zod.
#[local] Hint Resolve reports_string reports_number reports_optional
  reports_array reports_object reports_shape reports_key : zod.

Lemma succeeds_MessageSchema p v :
  succeeds (MessageSchema p v) = message_shaped v.
Proof.
  unfold MessageSchema. rewrite succeeds_object.
  destruct v as [[| | | | |o]|]; try reflexivity.
  now rewrite !succeeds_key, !succeeds_string.
Qed.

Lemma succeeds_ChoiceSchema p v :
  succeeds (ChoiceSchema p v) = choice_shaped v.
Proof.
  unfold ChoiceSchema. rewrite succeeds_object.
  destruct v as [[| | | | |o]|]; try reflexivity.
  rewrite !succeeds_key, succeeds_number, succeeds_MessageSchema,
    succeeds_optional, succeeds_string.
  cbn [choice_shaped succeeds Zod.shape andb].
  now destruct (lookup (lit "finish_reason") o).
Qed.

Lemma succeeds_UsageSchema p v :
  succeeds (UsageSchema p v) = usage_shaped v.
Proof.
  unfold UsageSchema. rewrite succeeds_object.
  destruct v as [[| | | | |o]|]; try reflexivity.
  now rewrite !succeeds_key, !succeeds_number.
Qed.

Lemma succeeds_CompletionResponseSchema p v :
  succeeds (CompletionResponseSchema p v) = structurally_valid v.
Proof.
  unfold CompletionResponseSchema. rewrite succeeds_object.
  destruct v as [[| | | | |o]|]; try reflexivity.
  rewrite !succeeds_key, !succeeds_number, !succeeds_string,
    succeeds_UsageSchema.
  rewrite succeeds_array with (P := fun c => choice_shaped (Some c))
    by (intros; apply succeeds_ChoiceSchema).
  reflexivity.
Qed.

Lemma reports_CompletionResponseSchema : reports CompletionResponseSchema.
Proof.
  unfold CompletionResponseSchema, ChoiceSchema, UsageSchema, MessageSchema.
  auto 20 with zod.
Qed.

(** [parse] goes through exactly on the structurally valid bodies, and
    otherwise throws a [ZodError] with at least one issue. *)
Lemma parse_cases body :
  if structurally_valid body
  then exists r, Zod.parse CompletionResponseSchema body = ret r
  else exists issues, issues <> []
         /\ Zod.parse CompletionResponseSchema body = throw (ZodError issues).
Proof.
  rewrite <- (succeeds_CompletionResponseSchema []). unfold Zod.parse.
  destruct (CompletionResponseSchema [] body) as [e|r] eqn:E; cbn; eauto.
  exists e. split; [|reflexivity]. eapply reports_CompletionResponseSchema, E.
Qed.

(** A validated response has one choice per item of the body's
    [choices] array. *)
Lemma parse_choices body r :
  Zod.parse CompletionResponseSchema body = ret r ->
  exists o cs,
    body = Some (JObj o) /\ lookup (lit "choices") o = Some (JArr cs)
    /\ length (choices r) = length cs.
Proof.
  unfold Zod.parse.
  destruct (CompletionResponseSchema [] body) as [e|r'] eqn:E; [discriminate|].
  intros [= ->]. unfold CompletionResponseSchema in E.
  destruct body as [[| | | | |o]|]; try discriminate.
  cbn [Zod.object] in E.
  apply key_inr in E as (g6 & usage' & E & _ & ->).
  apply key_inr in E as (g5 & choices' & E & Hc & ->).
  apply key_inr in E as (g4 & a4 & E & _ & ->).
  apply key_inr in E as (g3 & a3 & E & _ & ->).
  apply key_inr in E as (g2 & a2 & E & _ & ->).
  apply key_inr in E as (g1 & a1 & E & _ & ->).
  injection E as <-. cbn [choices].
  destruct (lookup (lit "choices") o) as [[| | | |cs|]|] eqn:El;
    try discriminate.
  exists o, cs. split; [reflexivity|]. split; [exact El|].
  eapply items_length, Hc.
Qed.

Lemma missing_usage_invalid o :
  lookup (lit "usage") o = None -> structurally_valid (Some (JObj o)) = false.
Proof.
  intros H. cbn [structurally_valid]. rewrite H. cbn. apply andb_false_r.
Qed.

(** C9: when the body of a fulfilled chat response is not structurally
    valid (a required field is missing, as [usage] may be, or a field has
    the wrong type), [chatCompletion] throws the [ZodError] of the failed
    parse, with at least one issue, and returns no response value. *)
Theorem malformed_body_schema_error net this messages options w response :
  net (lit "/chat/completions") (ChatPayload (chatRequestBody messages options))
    = Fulfilled response ->
  structurally_valid (data response) = false ->
  (exists issues,
     issues <> []
     /\ result_of (chatCompletion net this messages options w)
        = throw (ZodError issues))
  /\ (forall r, result_of (chatCompletion net this messages options w) <> ret r).
Proof.
  intros Hnet Hbad.
  pose proof (parse_cases (data response)) as H. rewrite Hbad in H.
  destruct H as (issues & Hne & Hp).
  rewrite chatCompletion_result, Hnet, Hp.
  split; [exists issues; split; [exact Hne|reflexivity]|].
  intros r. discriminate.
Qed.

(** C3, amended: a response returned by [chatCompletion] or
    [fimCompletion] is the validated body of a fulfilled request and has
    one choice per item of that body's [choices] array; the array may be
    empty, and a structurally valid body with zero choices validates as a
    response with zero choices. *)
Theorem validated_choices_follow_body
    net this messages options prompt foptions w :
  (forall r,
     result_of (chatCompletion net this messages options w) = ret r ->
     exists response o cs,
       net (lit "/chat/completions")
           (ChatPayload (chatRequestBody messages options)) = Fulfilled response
       /\ data response = Some (JObj o)
       /\ lookup (lit "choices") o = Some (JArr cs)
       /\ length (choices r) = length cs)
  /\ (forall r,
        result_of (fimCompletion net this prompt foptions w) = ret r ->
        exists response o cs,
          net (lit "/fim/completions")
              (FimPayload (fimRequestBody prompt foptions)) = Fulfilled response
          /\ data response = Some (JObj o)
          /\ lookup (lit "choices") o = Some (JArr cs)
          /\ length (choices r) = length cs)
  /\ (forall o,
        structurally_valid (Some (JObj o)) = true ->
        lookup (lit "choices") o = Some (JArr []) ->
        exists r,
          Zod.parse CompletionResponseSchema (Some (JObj o)) = ret r
          /\ choices r = []).
Proof.
  split; [|split].
  - intros r. rewrite chatCompletion_result.
    destruct (net _ _) as [response|e]; [|discriminate].
    destruct (Zod.parse _ _) as [e|r'] eqn:E; [discriminate|].
    intros [= ->]. apply parse_choices in E as (o & cs & H1 & H2 & H3).
    exists response, o, cs. auto.
  - intros r. rewrite fimCompletion_result.
    destruct (net _ _) as [response|e]; [|discriminate].
    destruct (Zod.parse _ _) as [e|r'] eqn:E; [discriminate|].
    intros [= ->]. apply parse_choices in E as (o & cs & H1 & H2 & H3).
    exists response, o, cs. auto.
  - intros o Hv Hc.
    pose proof (parse_cases (Some (JObj o))) as H. rewrite Hv in H.
    destruct H as (r & Hr). exists r. split; [exact Hr|].
    apply parse_choices in Hr as (o' & cs & [= <-] & H2 & H3).
    rewrite Hc in H2. injection H2 as <-.
    now destruct (choices r).
Qed.

(** ** The matcher on the extractor's pattern *)

Lemma is_any_true c : is_any c = true.
Proof. unfold is_any. now destruct (is_space c). Qed.

Lemma run_lit c r x s st :
  Regex.run (Regex.Lit c :: r) (x :: s) st =
    if (x =? c)%N then Regex.run r s (Regex.consume x st) else None.
Proof. reflexivity. Qed.

Lemma run_greedy_cons p r x s st :
  Regex.run (Regex.Star true p :: r) (x :: s) st =
    if p x then
      match Regex.run (Regex.Star true p :: r) s (Regex.consume x st) with
      | Some m => Some m
      | None => Regex.run r (x :: s) st
      end
    else Regex.run r (x :: s) st.
Proof. reflexivity. Qed.

Lemma run_lazy p r s st :
  Regex.run (Regex.Star false p :: r) s st =
    match Regex.run r s st with
    | Some m => Some m
    | None =>
        match s with
        | x :: s' =>
            if p x then Regex.run (Regex.Star false p :: r) s' (Regex.consume x st)
            else None
        | [] => None
        end
    end.
Proof. destruct s; reflexivity. Qed.

Lemma consume_outside_group x st :
  Regex.opened st = None -> Regex.consume x st = st.
Proof. destruct st as [o c]. cbn. now intros ->. Qed.

(** A greedy star followed by a literal outside its class never gives a
    code unit back: it takes the longest run and the literal must come
    next. *)
Lemma run_greedy_then_lit p c r s st :
  (forall x, p x = true -> (x =? c)%N = false) ->
  Regex.opened st = None ->
  Regex.run (Regex.Star true p :: Regex.Lit c :: r) s st =
    Regex.run (Regex.Lit c :: r) (dropWhile p s) st.
Proof.
  intros Hp Hst. induction s as [|x s IH]; [reflexivity|].
  rewrite run_greedy_cons. cbn [dropWhile].
  destruct (p x) eqn:E; [|reflexivity].
  rewrite consume_outside_group by exact Hst. rewrite IH.
  destruct (Regex.run (Regex.Lit c :: r) (dropWhile p s) st); [reflexivity|].
  cbn [Regex.run]. now rewrite (Hp x E).
Qed.

(** The closing fence, right at the head. *)
Lemma run_close_fence g cl s :
  Regex.run [ Regex.Close; Regex.Lit BACKTICK; Regex.Lit BACKTICK;
              Regex.Lit BACKTICK ] s
            {| Regex.opened := Some g; Regex.closed := cl |} =
    if starts_with_fence s
    then Some (skipn 3 s, {| Regex.opened := None; Regex.closed := cl ++ [g] |})
    else None.
Proof.
  destruct s as [|a [|b [|c s]]]; cbn;
    repeat match goal with
           | |- context [(?x =? BACKTICK)%N] => destruct (x =? BACKTICK)%N; cbn
           end; reflexivity.
Qed.

(** The lazy star in the group stops at the first triple backtick. *)
Lemma run_lazy_to_fence s : forall g cl,
  Regex.run [ Regex.Star false is_any; Regex.Close; Regex.Lit BACKTICK;
              Regex.Lit BACKTICK; Regex.Lit BACKTICK ] s
            {| Regex.opened := Some g; Regex.closed := cl |} =
    match first_fence s with
    | Some (body, rest) =>
        Some (rest, {| Regex.opened := None; Regex.closed := cl ++ [g ++ body] |})
    | None => None
    end.
Proof.
  induction s as [|x s IH]; intros g cl; rewrite run_lazy, run_close_fence.
  - reflexivity.
  - cbn [first_fence]. destruct (starts_with_fence (x :: s)).
    + now rewrite app_nil_r.
    + rewrite is_any_true. unfold Regex.consume.
      cbn [Regex.opened Regex.closed option_map].
      rewrite IH. destruct (first_fence s) as [[body rest]|]; [|reflexivity].
      now rewrite <- app_assoc.
Qed.

Lemma word_is_not_LF x : is_word x = true -> (x =? LF)%N = false.
Proof.
  intros H. destruct (N.eqb_spec x LF) as [->|]; [discriminate|reflexivity].
Qed.

(** The pattern at the head of a text recognises exactly [block_at]. *)
Lemma run_codeBlockRegex s :
  Regex.run codeBlockRegex s Regex.no_captures =
    match block_at s with
    | Some (body, rest) =>
        Some (rest, {| Regex.opened := None; Regex.closed := [body] |})
    | None => None
    end.
Proof.
  unfold block_at, codeBlockRegex.
  destruct s as [|a [|b [|c s]]]; try reflexivity;
    try (cbn; repeat match goal with
           | |- context [(?x =? BACKTICK)%N] => destruct (x =? BACKTICK)%N; cbn
           end; reflexivity).
  rewrite !run_lit. cbn [starts_with_fence skipn].
  destruct (a =? BACKTICK)%N; [|reflexivity].
  destruct (b =? BACKTICK)%N; [|reflexivity].
  destruct (c =? BACKTICK)%N; [|reflexivity].
  cbn [andb].
  rewrite !consume_outside_group by reflexivity.
  rewrite run_greedy_then_lit by (auto using word_is_not_LF).
  destruct (dropWhile is_word s) as [|x s']; [reflexivity|].
  rewrite run_lit. destruct (x =? LF)%N; [|reflexivity].
  change (Regex.run (Regex.Open :: ?r) ?t ?st)
    with (Regex.run r t (Regex.open_group st)).
  unfold Regex.consume, Regex.open_group, Regex.no_captures.
  cbn [Regex.opened Regex.closed option_map].
  rewrite run_lazy_to_fence. reflexivity.
Qed.

(** ** Searching a text made of fenced blocks *)

Lemma search_cons r a s :
  Regex.search r (a :: s) =
    match Regex.run r (a :: s) Regex.no_captures with
    | Some (s', st) =>
        Some {| Regex.at_ := a :: s; Regex.rest := s';
                Regex.groups := Regex.closed st |}
    | None => Regex.search r s
    end.
Proof. reflexivity. Qed.

Lemma first_fence_cons_none x s :
  first_fence (x :: s) = None ->
  starts_with_fence (x :: s) = false /\ first_fence s = None.
Proof.
  cbn [first_fence]. destruct (starts_with_fence (x :: s)); [discriminate|].
  destruct (first_fence s) as [[b r]|]; [discriminate|auto].
Qed.

Lemma first_fence_length s : forall body rest,
  first_fence s = Some (body, rest) ->
  length s = length body + 3 + length rest.
Proof.
  induction s as [|x s IH]; intros body rest; [discriminate|].
  cbn [first_fence]. destruct (starts_with_fence (x :: s)) eqn:E.
  - intros [= <- <-]. destruct s as [|b [|c s]]; try discriminate. reflexivity.
  - destruct (first_fence s) as [[b r]|]; [|discriminate].
    intros [= <- <-]. cbn [length]. rewrite (IH b r eq_refl). lia.
Qed.

Lemma dropWhile_run p tag c s :
  forallb p tag = true -> p c = false ->
  dropWhile p (tag ++ c :: s) = c :: s.
Proof.
  intros Ht Hc. induction tag as [|x tag IH]; cbn in *.
  - now rewrite Hc.
  - apply andb_true_iff in Ht as [-> Ht]. auto.
Qed.

(** No block starts inside text that has no triple backtick, even when
    the fence of a block follows it. *)
Lemma block_at_before_fence pre t :
  first_fence pre = None -> pre <> [] ->
  block_at (pre ++ lit "```" ++ t) = None.
Proof.
  intros Hf Hne. unfold block_at.
  destruct pre as [|a [|b [|c pre]]]; [congruence| | |].
  - cbn. destruct (a =? BACKTICK)%N; reflexivity.
  - cbn. destruct (a =? BACKTICK)%N, (b =? BACKTICK)%N; reflexivity.
  - apply first_fence_cons_none in Hf as [Hs _].
    cbn in Hs |- *. now rewrite Hs.
Qed.

Lemma block_at_no_fence s : first_fence s = None -> block_at s = None.
Proof.
  intros H. unfold block_at. destruct s as [|a s]; [reflexivity|].
  now apply first_fence_cons_none in H as [-> _].
Qed.

Lemma first_fence_skipn i : forall s,
  first_fence s = None -> first_fence (skipn i s) = None.
Proof.
  induction i as [|i IH]; intros s H; [exact H|].
  destruct s as [|a s]; [reflexivity|].
  cbn [skipn]. apply IH. now apply first_fence_cons_none in H.
Qed.

Lemma dropWhile_length p s : length (dropWhile p s) <= length s.
Proof.
  induction s as [|x s IH]; cbn; [lia|]. destruct (p x); cbn; lia.
Qed.

(** A block takes up text: what is left after it is shorter. *)
Lemma block_at_length s body rest :
  block_at s = Some (body, rest) -> length rest < length s.
Proof.
  unfold block_at. destruct (starts_with_fence s) eqn:Es; [|discriminate].
  destruct s as [|a [|b [|c s]]]; try discriminate. cbn [skipn].
  pose proof (dropWhile_length is_word s) as Hd.
  destruct (dropWhile is_word s) as [|x s']; [discriminate|].
  destruct (x =? LF)%N; [|discriminate].
  intros H. apply first_fence_length in H. cbn [length] in *. lia.
Qed.

(** The block a tagged fence opens. *)
Lemma block_at_tagged tag x :
  forallb is_word tag = true ->
  block_at (lit "```" ++ tag ++ nl ++ x) = first_fence x.
Proof.
  intros Ht.
  change (lit "```" ++ tag ++ nl ++ x)
    with (BACKTICK :: BACKTICK :: BACKTICK :: tag ++ LF :: x).
  unfold block_at. cbn [starts_with_fence skipn]. rewrite N.eqb_refl. cbn [andb].
  rewrite dropWhile_run by auto. now rewrite N.eqb_refl.
Qed.

Lemma search_skip pre s :
  (forall i, i < length pre -> block_at (skipn i (pre ++ s)) = None) ->
  Regex.search codeBlockRegex (pre ++ s) = Regex.search codeBlockRegex s.
Proof.
  induction pre as [|a pre IH]; intros H; [reflexivity|].
  cbn [app]. rewrite search_cons, run_codeBlockRegex.
  assert (H0 : block_at (a :: pre ++ s) = None) by (apply (H 0); cbn; lia).
  rewrite H0. apply IH.
  intros i Hi. apply (H (S i)). cbn. lia.
Qed.

Lemma search_at_block s body rest :
  block_at s = Some (body, rest) ->
  Regex.search codeBlockRegex s =
    Some {| Regex.at_ := s; Regex.rest := rest; Regex.groups := [body] |}.
Proof.
  intros H. destruct s as [|a s]; [discriminate|].
  now rewrite search_cons, run_codeBlockRegex, H.
Qed.

Lemma search_no_block s :
  (forall i, block_at (skipn i s) = None) ->
  Regex.search codeBlockRegex s = None.
Proof.
  induction s as [|a s IH]; intros H; pose proof (H 0) as H0;
    cbn [skipn] in H0.
  - cbn [Regex.search]. now rewrite run_codeBlockRegex.
  - rewrite search_cons, run_codeBlockRegex, H0.
    apply IH. intros i. apply (H (S i)).
Qed.

Lemma matchAll_blocks s blocks :
  Blocks s blocks ->
  forall fuel, length s < fuel ->
  map Regex.groups (Regex.matchAll_from fuel codeBlockRegex s) =
    map (fun b => [b]) blocks.
Proof.
  induction 1 as [s Hs|pre s body rest blocks Hpre Hb _ IH];
    intros [|fuel] Hfuel; try lia; cbn [Regex.matchAll_from].
  - now rewrite search_no_block.
  - rewrite search_skip, (search_at_block _ Hb) by exact Hpre.
    cbn [Regex.rest Regex.at_].
    pose proof (block_at_length _ Hb) as Hlen.
    rewrite length_app in Hfuel.
    destruct (Nat.eqb_spec (length rest) (length s)); [lia|].
    cbn [map Regex.groups]. f_equal. apply IH. lia.
Qed.

(** Every text reads as some sequence of blocks. *)
Lemma first_block s :
  (forall i, block_at (skipn i s) = None)
  \/ exists pre t body rest,
       s = pre ++ t
       /\ (forall i, i < length pre -> block_at (skipn i (pre ++ t)) = None)
       /\ block_at t = Some (body, rest).
Proof.
  induction s as [|a s IH].
  - left. intros i. now destruct i.
  - destruct (block_at (a :: s)) as [[body rest]|] eqn:E.
    + right. exists [], (a :: s), body, rest. repeat split; auto.
      cbn. intros i Hi. lia.
    + destruct IH as [IH|(pre & t & body & rest & -> & Hpre & Hb)].
      * left. intros [|i]; [exact E|apply IH].
      * right. exists (a :: pre), t, body, rest. repeat split; auto.
        intros [|i] Hi; [exact E|]. apply Hpre. cbn in Hi. lia.
Qed.

Lemma Blocks_total s : exists blocks, Blocks s blocks.
Proof.
  remember (length s) as n eqn:Hn. revert s Hn.
  induction n as [n IH] using lt_wf_ind. intros s ->.
  destruct (first_block s) as [H|(pre & t & body & rest & -> & Hpre & Hb)].
  - exists []. now constructor.
  - destruct (IH (length rest)) with (s := rest) as [blocks Hr]; auto.
    + apply block_at_length in Hb. rewrite length_app. lia.
    + exists (body :: blocks). econstructor; eassumption.
Qed.

(** Blocks separated by text without triple backtick are read as they
    stand. *)
Lemma FencedText_Blocks s blocks : FencedText s blocks -> Blocks s blocks.
Proof.
  induction 1 as [s Hs|pre tag x body rest blocks Hpre Htag Hx _ IH].
  - constructor. intros i. now apply block_at_no_fence, first_fence_skipn.
  - apply blocks_cons with (rest := rest);
      [|now rewrite block_at_tagged|exact IH].
    intros i Hi. rewrite skipn_app.
    replace (i - length pre) with 0 by lia. cbn [skipn].
    apply block_at_before_fence; [now apply first_fence_skipn|].
    intros E. apply (f_equal (@length _)) in E. rewrite length_skipn in E.
    cbn in E. lia.
Qed.

Lemma map_result_trimmed ms : forall blocks,
  map Regex.groups ms = map (fun b => [b]) blocks ->
  map_result trimmed_group ms = ret (map trim blocks).
Proof.
  induction ms as [|m ms IH]; intros [|b blocks]; try discriminate;
    [reflexivity|].
  cbn [map]. intros [= Hm Hms]. cbn [map_result].
  unfold trimmed_group at 1, Regex.group. rewrite Hm. cbn.
  now rewrite (IH _ Hms).
Qed.

Lemma formatResponse_blocks completion choice others text blocks :
  choices completion = choice :: others ->
  content (message choice) = text ->
  Blocks text blocks ->
  formatResponse completion =
    ret (match blocks with
         | [] => text
         | _ :: _ => join (nl ++ nl) (map trim blocks)
         end).
Proof.
  intros Hc Ht Hf. unfold formatResponse. rewrite Hc, Ht.
  pose proof (matchAll_blocks Hf (fuel := S (length text)) (Nat.lt_succ_diag_r _)) as Hm.
  fold (Regex.matchAll codeBlockRegex text) in Hm.
  rewrite (map_result_trimmed _ _ Hm).
  apply (f_equal (@length _)) in Hm. rewrite !length_map in Hm. rewrite Hm.
  now destruct blocks.
Qed.

(** A text reads as one sequence of blocks only. *)
Lemma Blocks_unique s blocks blocks' :
  Blocks s blocks -> Blocks s blocks' -> blocks = blocks'.
Proof.
  intros H H'.
  pose proof (matchAll_blocks H (fuel := S (length s)) (Nat.lt_succ_diag_r _)) as E.
  rewrite (matchAll_blocks H' (fuel := S (length s)) (Nat.lt_succ_diag_r _)) in E.
  clear H H'. revert blocks E.
  induction blocks' as [|b' bs' IH]; intros [|b bs]; try discriminate; auto.
  cbn. intros [= -> E]. f_equal. now apply IH.
Qed.

(** What the extractor returns, on every text.  Read a response text from
    left to right, a block being three backticks, a possibly empty tag of
    word characters, a line feed, and the inner text up to the next three
    backticks.  Every text reads as some sequence of such blocks.  When
    it reads as one or more blocks, [formatResponse] returns their inner
    texts, each trimmed, joined by a blank line, in their order; when no
    such block starts anywhere in it, [formatResponse] returns the text
    unchanged.  In particular this is so for blocks that are each
    preceded by text without triple backtick. *)
Theorem extract_fenced_blocks completion choice others text :
  choices completion = choice :: others ->
  content (message choice) = text ->
  let extracted blocks :=
    ret (match blocks with
         | [] => text
         | _ :: _ => join (nl ++ nl) (map trim blocks)
         end) in
  (exists blocks, Blocks text blocks)
  /\ (forall blocks,
        Blocks text blocks -> formatResponse completion = extracted blocks)
  /\ (forall blocks,
        FencedText text blocks -> formatResponse completion = extracted blocks).
Proof.
  intros Hc Ht extracted. split; [apply Blocks_total|].
  split; intros blocks H.
  - now apply formatResponse_blocks with (1 := Hc).
  - apply formatResponse_blocks with (1 := Hc); [exact Ht|].
    now apply FencedText_Blocks.
Qed.

(** ** Texts without triple backtick *)

Lemma starts_with_fence_head c t :
  c <> BACKTICK -> starts_with_fence (c :: t) = false.
Proof.
  intros H. apply N.eqb_neq in H.
  destruct t as [|b [|d t]]; cbn; try reflexivity. now rewrite H.
Qed.

Lemma first_fence_clean a r :
  no_backtick a = true -> first_fence (a ++ lit "```" ++ r) = Some (a, r).
Proof.
  induction a as [|c a IH]; intros H; [reflexivity|].
  cbn in H. apply andb_true_iff in H as [Hc Ha].
  cbn [app first_fence]. rewrite starts_with_fence_head, (IH Ha); auto.
  intros ->. discriminate.
Qed.

Lemma first_fence_none_clean a :
  no_backtick a = true -> first_fence a = None.
Proof.
  induction a as [|c a IH]; intros H; [reflexivity|].
  cbn in H. apply andb_true_iff in H as [Hc Ha].
  cbn [first_fence]. rewrite starts_with_fence_head, (IH Ha); auto.
  intros ->. discriminate.
Qed.

Lemma first_fence_split s : forall body rest,
  first_fence s = Some (body, rest) -> s = body ++ lit "```" ++ rest.
Proof.
  induction s as [|x s IH]; intros body rest; [discriminate|].
  cbn [first_fence]. destruct (starts_with_fence (x :: s)) eqn:E.
  - intros [= <- <-]. destruct s as [|b [|c s]]; try discriminate.
    cbn in E. apply andb_true_iff in E as [E Ec].
    apply andb_true_iff in E as [Ea Eb].
    apply N.eqb_eq in Ea, Eb, Ec. now subst.
  - destruct (first_fence s) as [[b r]|]; [|discriminate].
    intros [= <- <-]. cbn [app]. f_equal. now apply IH.
Qed.

Lemma starts_with_fence_app a t :
  starts_with_fence (a ++ t) = false -> starts_with_fence a = false.
Proof. destruct a as [|x [|y [|z a]]]; auto. Qed.

Lemma first_fence_prefix a : forall t,
  first_fence (a ++ t) = None -> first_fence a = None.
Proof.
  induction a as [|x a IH]; intros t H; [reflexivity|].
  cbn [app] in H. apply first_fence_cons_none in H as [Hs Hf].
  cbn [first_fence].
  rewrite (starts_with_fence_app (x :: a) t Hs), (IH _ Hf). reflexivity.
Qed.

Lemma first_fence_suffix a t :
  first_fence (a ++ t) = None -> first_fence t = None.
Proof.
  intros H. apply (first_fence_skipn (length a)) in H.
  rewrite skipn_app, skipn_all, Nat.sub_diag in H. exact H.
Qed.

Lemma first_fence_body s body rest :
  first_fence s = Some (body, rest) -> first_fence body = None.
Proof.
  revert body rest. induction s as [|x s IH]; intros body rest; [discriminate|].
  cbn [first_fence]. destruct (starts_with_fence (x :: s)) eqn:E.
  - now intros [= <- <-].
  - destruct (first_fence s) as [[b r]|] eqn:Ef; [|discriminate].
    intros [= <- <-]. cbn [first_fence].
    rewrite (IH b r eq_refl).
    apply first_fence_split in Ef. subst s.
    change (x :: b ++ lit "```" ++ r) with ((x :: b) ++ lit "```" ++ r) in E.
    now rewrite (starts_with_fence_app _ _ E).
Qed.

Lemma first_fence_app_sep a c b :
  c <> BACKTICK -> first_fence a = None -> first_fence b = None ->
  first_fence (a ++ c :: b) = None.
Proof.
  intros Hc Ha Hb. induction a as [|x a IH].
  - cbn [app first_fence]. now rewrite starts_with_fence_head, Hb.
  - apply first_fence_cons_none in Ha as [Hs Ha].
    cbn [app first_fence]. rewrite (IH Ha).
    assert (E : starts_with_fence (x :: a ++ c :: b) = false).
    { apply N.eqb_neq in Hc.
      destruct a as [|y [|z a]]; [| |exact Hs].
      - destruct b; cbn; [reflexivity|]. rewrite Hc. now rewrite andb_false_r.
      - cbn. rewrite Hc. apply andb_false_r. }
    now rewrite E.
Qed.

Lemma dropWhile_skipn p s : exists k, dropWhile p s = skipn k s.
Proof.
  induction s as [|x s [k IH]]; [now exists 0|].
  cbn [dropWhile]. destruct (p x); [exists (S k); exact IH|now exists 0].
Qed.

Lemma dropWhile_split p s : exists w, s = w ++ dropWhile p s.
Proof.
  induction s as [|x s [w IH]]; [now exists []|].
  cbn [dropWhile]. destruct (p x); [|now exists []].
  exists (x :: w). cbn. now f_equal.
Qed.

Lemma first_fence_trim s : first_fence s = None -> first_fence (trim s) = None.
Proof.
  intros H. unfold trim, trimStart, trimEnd.
  destruct (dropWhile_skipn is_space s) as [k ->].
  apply (first_fence_skipn k) in H. revert H. generalize (skipn k s). intros t H.
  destruct (dropWhile_split is_space (rev t)) as [w E].
  apply (f_equal (@rev N)) in E. rewrite rev_involutive, rev_app_distr in E.
  rewrite E in H. now apply first_fence_prefix in H.
Qed.

Lemma first_fence_join parts :
  Forall (fun b => first_fence b = None) parts ->
  first_fence (join (nl ++ nl) parts) = None.
Proof.
  induction 1 as [|b [|b' parts] Hb _ IH]; [reflexivity|exact Hb|].
  change (join (nl ++ nl) (b :: b' :: parts))
    with (b ++ LF :: LF :: join (nl ++ nl) (b' :: parts)).
  apply first_fence_app_sep; [discriminate|exact Hb|].
  cbn [first_fence]. rewrite starts_with_fence_head by discriminate.
  now rewrite IH.
Qed.

Lemma block_at_body s body rest :
  block_at s = Some (body, rest) -> first_fence body = None.
Proof.
  unfold block_at. destruct (starts_with_fence s); [|discriminate].
  destruct (dropWhile is_word (skipn 3 s)) as [|x s']; [discriminate|].
  destruct (x =? LF)%N; [|discriminate]. apply first_fence_body.
Qed.

Lemma Blocks_bodies s blocks :
  Blocks s blocks -> Forall (fun b => first_fence b = None) blocks.
Proof.
  induction 1 as [|pre s body rest blocks _ Hb _ IH]; constructor; auto.
  eapply block_at_body, Hb.
Qed.

Lemma Blocks_no_fence s : first_fence s = None -> Blocks s [].
Proof.
  intros H. constructor. intros i.
  now apply block_at_no_fence, first_fence_skipn.
Qed.

Lemma first_fence_is_first s : forall body rest i,
  first_fence s = Some (body, rest) -> i < length body ->
  starts_with_fence (skipn i s) = false.
Proof.
  induction s as [|x s IH]; intros body rest i; [discriminate|].
  cbn [first_fence]. destruct (starts_with_fence (x :: s)) eqn:E.
  - intros [= <- <-]. cbn. lia.
  - destruct (first_fence s) as [[b r]|] eqn:Ef; [|discriminate].
    intros [= <- <-] Hi. destruct i as [|i]; [exact E|].
    cbn [skipn]. apply (IH b r); auto. cbn in Hi. lia.
Qed.

Lemma block_at_needs_closing s :
  first_fence (skipn 3 s) = None -> block_at s = None.
Proof.
  intros H. unfold block_at. destruct (starts_with_fence s); [|reflexivity].
  destruct (dropWhile_skipn is_word (skipn 3 s)) as [k E]. rewrite E.
  apply (first_fence_skipn k) in H.
  destruct (skipn k (skipn 3 s)) as [|x s']; [reflexivity|].
  destruct (x =? LF)%N; [|reflexivity].
  now apply first_fence_cons_none in H.
Qed.

(** The first triple backtick of a text that starts with a part without
    any, followed by a character that is no backtick, is the first one of
    what comes after. *)
Lemma first_fence_after a c b :
  c <> BACKTICK -> first_fence a = None ->
  first_fence (a ++ c :: b) =
    match first_fence b with
    | Some (body, rest) => Some (a ++ c :: body, rest)
    | None => None
    end.
Proof.
  intros Hc Ha. induction a as [|x a IH].
  - cbn [app first_fence]. now rewrite starts_with_fence_head.
  - apply first_fence_cons_none in Ha as [Hs Ha].
    cbn [app first_fence]. rewrite (IH Ha).
    assert (E : starts_with_fence (x :: a ++ c :: b) = false).
    { apply N.eqb_neq in Hc.
      destruct a as [|y [|z a]]; [| |exact Hs].
      - destruct b; cbn; [reflexivity|]. rewrite Hc. now rewrite andb_false_r.
      - cbn. rewrite Hc. apply andb_false_r. }
    rewrite E. now destruct (first_fence b) as [[body rest]|].
Qed.

(** A part without triple backtick, then text without backtick, then a
    fence: the fence is the first one. *)
Lemma first_fence_part a b r :
  first_fence a = None -> no_backtick b = true -> b <> [] ->
  first_fence (a ++ b ++ lit "```" ++ r) = Some (a ++ b, r).
Proof.
  intros Ha Hb Hne. destruct b as [|c b]; [congruence|].
  cbn in Hb. apply andb_true_iff in Hb as [Hc Hb].
  cbn [app]. rewrite first_fence_after, first_fence_clean; auto.
  intros ->. discriminate.
Qed.

Lemma first_fence_tagged tag body :
  first_fence tag = None -> first_fence body = None ->
  first_fence (tag ++ nl ++ body) = None.
Proof. intros. apply first_fence_app_sep; auto. discriminate. Qed.

(** The body of a fenced block of the prompt ends at the closing fence
    the template gives it, when it holds no triple backtick itself. *)
Lemma first_fence_line a r :
  first_fence a = None ->
  first_fence (a ++ nl ++ lit "```" ++ r) = Some (a ++ nl, r).
Proof. intros H. apply first_fence_part; auto. discriminate. Qed.

(** ** Fences the pattern misses *)

(** The pattern gives up on a tag at its first character that is neither
    a word character nor the line feed. *)
Lemma dropWhile_tag tag t :
  forallb is_word tag = false ->
  on_fence_line tag = true ->
  exists c s', dropWhile is_word (tag ++ t) = c :: s' /\ (c =? LF)%N = false.
Proof.
  unfold on_fence_line.
  induction tag as [|x tag IH]; [discriminate|]. cbn [forallb app dropWhile].
  destruct (is_word x) eqn:Ex; cbn [andb]; intros Hw Hl;
    apply andb_true_iff in Hl as [Hx Hl]; [now apply IH|].
  exists x, (tag ++ t). split; [reflexivity|].
  apply andb_true_iff in Hx as [Hx _]. now apply negb_true_iff in Hx.
Qed.

Lemma on_fence_line_head tag :
  forallb is_word tag = false -> on_fence_line tag = true ->
  exists c tag', tag = c :: tag' /\ (c =? BACKTICK)%N = false.
Proof.
  destruct tag as [|c tag']; [discriminate|]. intros _ H.
  exists c, tag'. split; [reflexivity|].
  unfold on_fence_line in H. cbn in H.
  apply andb_true_iff in H as [H _]. apply andb_true_iff in H as [_ H].
  now apply negb_true_iff in H.
Qed.

Lemma on_fence_line_no_fence tag :
  on_fence_line tag = true -> first_fence tag = None.
Proof.
  intros H. apply first_fence_none_clean. unfold on_fence_line in H.
  unfold no_backtick. induction tag as [|c tag IH]; [reflexivity|].
  cbn in H |- *. apply andb_true_iff in H as [Hc H].
  apply andb_true_iff in Hc as [_ ->]. now apply IH.
Qed.

(** No block starts anywhere in a text made of one fenced block whose tag
    holds a character that is no word character. *)
Lemma no_block_under_tag tag body i :
  forallb is_word tag = false ->
  on_fence_line tag = true ->
  first_fence body = None ->
  block_at (skipn i (lit "```" ++ tag ++ nl ++ body ++ nl ++ lit "```")) = None.
Proof.
  intros Hw Hl Hb.
  assert (E : tag ++ nl ++ body ++ nl ++ lit "```"
              = (tag ++ nl ++ body) ++ nl ++ lit "```" ++ [])
    by now rewrite <- !app_assoc.
  assert (Hm : first_fence (tag ++ nl ++ body ++ nl ++ lit "```")
               = Some ((tag ++ nl ++ body) ++ nl, [])).
  { rewrite E. apply first_fence_part; [|reflexivity|discriminate].
    apply first_fence_tagged; auto using on_fence_line_no_fence. }
  destruct i as [|[|[|j]]].
  - cbn [skipn]. unfold block_at.
    change (lit "```" ++ tag ++ nl ++ body ++ nl ++ lit "```")
      with (BACKTICK :: BACKTICK :: BACKTICK
              :: tag ++ nl ++ body ++ nl ++ lit "```").
    cbn [starts_with_fence skipn]. rewrite N.eqb_refl. cbn [andb].
    destruct (@dropWhile_tag tag (nl ++ body ++ nl ++ lit "```") Hw Hl)
      as (c & s' & -> & ->). reflexivity.
  - destruct (@on_fence_line_head tag Hw Hl) as (c & tag' & -> & Hc).
    unfold block_at. cbn. now rewrite Hc.
  - destruct (@on_fence_line_head tag Hw Hl) as (c & tag' & -> & Hc).
    unfold block_at. cbn. rewrite Hc. now destruct (tag' ++ _).
  - change (skipn (S (S (S j)))
              (lit "```" ++ tag ++ nl ++ body ++ nl ++ lit "```"))
      with (skipn j (tag ++ nl ++ body ++ nl ++ lit "```")).
    destruct (Nat.lt_ge_cases j (length ((tag ++ nl ++ body) ++ nl)))
      as [Hj|Hj].
    + unfold block_at. erewrite first_fence_is_first; eauto.
    + apply block_at_needs_closing. rewrite skipn_skipn.
      rewrite E, app_assoc, skipn_app, skipn_all2 by lia.
      cbn [app].
      rewrite app_nil_r, skipn_all2
        by (change (length (lit "```")) with 3; lia).
      reflexivity.
Qed.

(** C5 (the code departs from it): a response made of one fenced block
    whose language tag holds a character that is no word character, as
    [c++] and [c#] do, is a fenced block with a language tag after the
    opening fence; [formatResponse] returns the whole text, fences and tag
    included, and not the trimmed inner content. *)
Theorem non_word_tag_not_extracted completion choice others tag body :
  choices completion = choice :: others ->
  content (message choice) = lit "```" ++ tag ++ nl ++ body ++ nl ++ lit "```" ->
  forallb is_word tag = false ->
  on_fence_line tag = true ->
  first_fence body = None ->
  formatResponse completion
    = ret (lit "```" ++ tag ++ nl ++ body ++ nl ++ lit "```")
  /\ formatResponse completion <> ret (trim (body ++ nl)).
Proof.
  intros Hc Ht Hw Hl Hb.
  assert (E : formatResponse completion
              = ret (lit "```" ++ tag ++ nl ++ body ++ nl ++ lit "```")).
  { apply (formatResponse_blocks completion Hc Ht (blocks := [])).
    constructor. intros i. now apply no_block_under_tag. }
  split; [exact E|]. rewrite E. intros [= F].
  assert (Hn : first_fence (trim (body ++ nl)) = None).
  { apply first_fence_trim.
    apply (first_fence_body _ (first_fence_line body [] Hb)). }
  rewrite <- F in Hn. discriminate Hn.
Qed.

(** ** The prompt read by the extractor *)

(** One fenced block of the prompt, with clean text before it, reads as a
    block holding the body and its line break. *)
Lemma fenced_reads pre language body rest blocks :
  no_backtick pre = true ->
  forallb is_word (or_empty language) = true ->
  no_backtick body = true ->
  FencedText rest blocks ->
  FencedText (pre ++ fenced language body ++ rest) ((body ++ nl) :: blocks).
Proof.
  intros Hpre Hl Hb Hr. unfold fenced. rewrite <- !app_assoc.
  change (body ++ nl ++ lit "```" ++ rest)
    with (body ++ (nl ++ lit "```" ++ rest)).
  rewrite (app_assoc body nl).
  apply fenced_block with (rest := rest); auto.
  - now apply first_fence_none_clean.
  - apply first_fence_clean. now apply no_backtick_app.
Qed.

Lemma count_fences_first s :
  count_fences s =
    match first_fence s with
    | Some (_, rest) => S (count_fences rest)
    | None => 0
    end.
Proof.
  induction s as [|a s IH]; [reflexivity|].
  destruct s as [|b [|c s]]; [reflexivity|reflexivity|].
  change (count_fences (a :: b :: c :: s))
    with (if ((a =? BACKTICK) && (b =? BACKTICK) && (c =? BACKTICK))%N
          then S (count_fences s) else count_fences (b :: c :: s)).
  change (first_fence (a :: b :: c :: s))
    with (if ((a =? BACKTICK) && (b =? BACKTICK) && (c =? BACKTICK))%N
          then Some ([], s)
          else match first_fence (b :: c :: s) with
               | Some (body, rest) => Some (a :: body, rest)
               | None => None
               end).
  destruct ((a =? BACKTICK) && (b =? BACKTICK) && (c =? BACKTICK))%N;
    [reflexivity|].
  rewrite IH. now destruct (first_fence (b :: c :: s)) as [[body rest]|].
Qed.

Lemma count_fences_part a b r :
  first_fence a = None -> no_backtick b = true -> b <> [] ->
  count_fences (a ++ b ++ lit "```" ++ r) = S (count_fences r).
Proof.
  intros Ha Hb Hne. now rewrite count_fences_first, first_fence_part.
Qed.

(** The introduction line holds no triple backtick when the language
    holds none. *)
Lemma first_fence_language language :
  first_fence (or_empty language) = None ->
  first_fence
    (lit "Here is the"
       ++ (if opt_truthy language then lit " " ++ or_empty language else []))
    = None.
Proof.
  intros H. destruct (opt_truthy language).
  - apply (@first_fence_app_sep (lit "Here is the") 32%N (or_empty language));
      [discriminate|reflexivity|exact H].
  - reflexivity.
Qed.

Lemma first_fence_intro language r :
  first_fence (or_empty language) = None ->
  first_fence (prompt_intro language) = None
  /\ first_fence (prompt_intro language ++ lit "```" ++ r)
     = Some (prompt_intro language, r).
Proof.
  intros H. apply first_fence_language in H.
  assert (E : forall t,
            first_fence (prompt_intro language ++ lit "```" ++ t)
              = Some (prompt_intro language, t)).
  { intros t.
    assert (P : prompt_intro language =
              (lit "Here is the"
                 ++ (if opt_truthy language then lit " " ++ or_empty language
                     else []))
                ++ (lit " code:" ++ nl ++ nl))
      by (unfold prompt_intro; apply app_assoc).
    rewrite P, <- app_assoc.
    apply first_fence_part; [exact H|reflexivity|discriminate]. }
  split; [|apply E].
  apply (first_fence_body _ (E [])).
Qed.

Lemma count_fences_fenced language body r :
  first_fence (or_empty language) = None -> first_fence body = None ->
  count_fences (fenced language body ++ r) = 2 + count_fences r.
Proof.
  intros Hl Hb. unfold fenced. rewrite <- !app_assoc, count_fences_fence.
  assert (E : or_empty language ++ nl ++ body ++ nl ++ lit "```" ++ r =
              (or_empty language ++ nl ++ body) ++ nl ++ lit "```" ++ r)
    by now rewrite <- !app_assoc.
  rewrite E, count_fences_part; auto using first_fence_tagged. discriminate.
Qed.

Lemma count_fences_intro language r :
  first_fence (or_empty language) = None ->
  count_fences (prompt_intro language ++ lit "```" ++ r) = S (count_fences r).
Proof.
  intros Hl. rewrite count_fences_first.
  now destruct (first_fence_intro language r Hl) as [_ ->].
Qed.

Lemma count_fences_prompt language body r :
  first_fence (or_empty language) = None -> first_fence body = None ->
  count_fences (prompt_intro language ++ fenced language body ++ r)
    = 2 + count_fences r.
Proof.
  intros Hl Hb.
  pose proof (count_fences_fenced language body r Hl Hb) as E.
  unfold fenced in *. rewrite <- !app_assoc in *.
  rewrite count_fences_intro by exact Hl.
  rewrite count_fences_fence in E. exact E.
Qed.

(** One fenced block of the prompt, after text without triple backtick,
    reads as a block holding the body and its line break. *)
Lemma fenced_reads_body pre language body rest blocks :
  first_fence pre = None ->
  forallb is_word (or_empty language) = true ->
  first_fence body = None ->
  FencedText rest blocks ->
  FencedText (pre ++ fenced language body ++ rest) ((body ++ nl) :: blocks).
Proof.
  intros Hpre Hl Hb Hr. unfold fenced. rewrite <- !app_assoc.
  apply fenced_block with (rest := rest); auto.
  now apply first_fence_line.
Qed.

(** C7, amended: for the fill-in-the-middle task with a non-empty suffix
    the user message is the introduction, the fenced code, the connective
    text "The code should end with:" and a second fenced block holding
    the suffix; with no suffix (or an empty one) it is the introduction
    and the one fenced block.  When neither the code nor the language nor
    the suffix holds three backticks in a row, the message has exactly
    four, respectively two, fence delimiters, and, the language being
    made of word characters, the extractor reads it as exactly the two
    blocks, respectively the one. *)
Theorem fim_prompt_blocks (code : jstring) (language : option jstring) :
  let tagged := forallb is_word (or_empty language) in
  (forall s, s <> [] ->
     exists userContent,
       createPrompt code language fim (Some s) =
         [ {| role := lit "system"; content := systemPrompts fim |};
           {| role := lit "user"; content := userContent |} ]
       /\ userContent =
            prompt_intro language ++ fenced language code
              ++ (nl ++ nl ++ lit "The code should end with:" ++ nl ++ nl)
              ++ fenced language s
       /\ (first_fence code = None ->
           first_fence (or_empty language) = None ->
           first_fence s = None ->
             count_fences userContent = 4
             /\ (tagged = true ->
                   Blocks userContent [code ++ nl; s ++ nl])))
  /\ (forall suffix, suffix = None \/ suffix = Some [] ->
        exists userContent,
          createPrompt code language fim suffix =
            [ {| role := lit "system"; content := systemPrompts fim |};
              {| role := lit "user"; content := userContent |} ]
          /\ userContent = prompt_intro language ++ fenced language code
          /\ (first_fence code = None ->
              first_fence (or_empty language) = None ->
                count_fences userContent = 2
                /\ (tagged = true -> Blocks userContent [code ++ nl]))).
Proof.
  intros tagged. split.
  - intros s Hs. eexists. split; [apply createPrompt_fim_suffix, Hs|].
    split; [reflexivity|]. intros Hc Hl Hsuf. split.
    + rewrite count_fences_prompt by assumption.
      rewrite count_fences_clean by reflexivity.
      rewrite <- (app_nil_r (fenced language s)).
      now rewrite count_fences_fenced.
    + intros Ht. apply FencedText_Blocks.
      apply fenced_reads_body; auto.
      { now destruct (first_fence_intro language [] Hl). }
      rewrite <- (app_nil_r (fenced language s)).
      apply fenced_reads_body; auto. now constructor.
  - intros suffix Hs. eexists. split.
    + apply createPrompt_plain. destruct Hs as [-> | ->]; reflexivity.
    + split; [reflexivity|]. intros Hc Hl. split.
      * rewrite <- (app_nil_r (fenced language code)).
        now rewrite count_fences_prompt.
      * intros Ht. apply FencedText_Blocks.
        rewrite <- (app_nil_r (fenced language code)).
        apply fenced_reads_body; auto; [|now constructor].
        now destruct (first_fence_intro language [] Hl).
Qed.

(** ** The fuel of [matchAll] is enough *)

Lemma run_length r : forall s st s' st',
  Regex.run r s st = Some (s', st') -> length s' <= length s.
Proof.
  induction r as [|a r IH]; intros s st s' st'.
  - cbn. now intros [= <- <-].
  - destruct a as [c|p|[|] p| |].
    + destruct s as [|x s]; cbn; [discriminate|].
      destruct (x =? c)%N; [|discriminate].
      intros H. apply IH in H. lia.
    + destruct s as [|x s]; cbn; [discriminate|].
      destruct (p x); [|discriminate].
      intros H. apply IH in H. lia.
    + revert st. induction s as [|x s IHs]; intros st.
      * apply IH.
      * rewrite run_greedy_cons. destruct (p x); [|apply IH].
        destruct (Regex.run _ s (Regex.consume x st)) as [[s1 st1]|] eqn:E;
          [|apply IH].
        intros [= <- <-]. apply IHs in E. cbn. lia.
    + revert st. induction s as [|x s IHs]; intros st; rewrite run_lazy;
        destruct (Regex.run r _ st) as [[s1 st1]|] eqn:E;
        try (intros [= <- <-]; now apply IH in E); try discriminate.
      destruct (p x); [|discriminate].
      intros H. apply IHs in H. cbn. lia.
    + apply IH.
    + apply IH.
Qed.

Lemma search_length r s : forall m,
  Regex.search r s = Some m ->
  length (Regex.rest m) <= length (Regex.at_ m)
  /\ length (Regex.at_ m) <= length s.
Proof.
  induction s as [|a s IH]; intros m; cbn [Regex.search];
    destruct (Regex.run r _ Regex.no_captures) as [[s' st]|] eqn:E;
    try discriminate.
  - intros [= <-]. apply run_length in E. cbn in *. lia.
  - intros [= <-]. apply run_length in E. cbn in *. lia.
  - intros H. apply IH in H. cbn in *. lia.
Qed.

Lemma matchAll_from_enough r : forall f1 f2 s,
  length s < f1 -> length s < f2 ->
  Regex.matchAll_from f1 r s = Regex.matchAll_from f2 r s.
Proof.
  induction f1 as [|f1 IH]; intros [|f2] s H1 H2; try lia.
  cbn [Regex.matchAll_from].
  destruct (Regex.search r s) as [m|] eqn:E; [|reflexivity].
  apply search_length in E as [Hr Ha]. f_equal.
  destruct (Nat.eqb_spec (length (Regex.rest m)) (length (Regex.at_ m))).
  - destruct (Regex.rest m) as [|x s'] eqn:Er; [reflexivity|].
    cbn in *. apply IH; lia.
  - apply IH; lia.
Qed.

Lemma matchAll_from_S fuel r s :
  Regex.matchAll_from (S fuel) r s =
    match Regex.search r s with
    | None => []
    | Some m =>
        m :: (if length (Regex.rest m) =? length (Regex.at_ m)
              then match Regex.rest m with
                   | [] => []
                   | _ :: s' => Regex.matchAll_from fuel r s'
                   end
              else Regex.matchAll_from fuel r (Regex.rest m))
    end.
Proof. reflexivity. Qed.

(** [matchAll] is the loop it stands for: search, keep the match, go on
    from its end (one further after an empty match). *)
Lemma matchAll_unfold r s :
  Regex.matchAll r s =
    match Regex.search r s with
    | None => []
    | Some m =>
        m :: (if length (Regex.rest m) =? length (Regex.at_ m)
              then match Regex.rest m with
                   | [] => []
                   | _ :: s' => Regex.matchAll r s'
                   end
              else Regex.matchAll r (Regex.rest m))
    end.
Proof.
  unfold Regex.matchAll at 1. rewrite matchAll_from_S.
  destruct (Regex.search r s) as [m|] eqn:E; [|reflexivity].
  apply search_length in E as [Hr Ha]. f_equal.
  destruct (Nat.eqb_spec (length (Regex.rest m)) (length (Regex.at_ m))).
  - destruct (Regex.rest m) as [|x s'] eqn:Er; [reflexivity|].
    cbn [length] in *. apply matchAll_from_enough; lia.
  - apply matchAll_from_enough; lia.
Qed.

(* ===================================================================== *)
(** * The theorems at work on concrete inputs *)
(* ===================================================================== *)

(** Two calls made at clock reading 1000 on a fresh client: both requests
    leave at 1000, and the timestamp of the client is still 0. *)
Example two_calls_at_1000 :
  let r1 := chatCompletion (answering None) (built_client (lit "key")) []
              Chat.no_options (world_at 1000) in
  let r2 := chatCompletion (answering None) (client_of r1) []
              Chat.no_options (world_of r1) in
  start_times (world_of r2) = [1000; 1000]%Z
  /\ lastRequestTime (client_of r2) = 0%Z.
Proof. vm_compute. split; reflexivity. Qed.

(** The helper, run to its end before each of the two requests, one
    after the other, would have held the second one back until 1100. *)
Example two_paced_calls_at_1000 :
  let (c1, w1) := enforceRateLimit (built_client (lit "key")) (world_at 1000) in
  let (c2, w2) := enforceRateLimit c1 w1 in
  (now w1, now w2) = (1000, 1100)%Z.
Proof. reflexivity. Qed.

(** A status 503 is a 5xx status, and the call does not throw the server
    error for it: it throws the unclassified error. *)
Lemma status_503_is_unclassified :
  is_5xx 503 = true
  /\ result_of (chatCompletion (failing_with error_503) (built_client (lit "key"))
                  [] Chat.no_options (world_at 0))
     = throw (UnclassifiedApiError (Some (JNum 503))
                (Some (JStr (lit "Request failed with status code 503"))))
  /\ result_of (chatCompletion (failing_with error_503) (built_client (lit "key"))
                  [] Chat.no_options (world_at 0))
     <> throw ServerError.
Proof.
  split; [reflexivity|]. split; [reflexivity|].
  intros H. vm_compute in H. discriminate H.
Qed.

Lemma transport_failure_classification_witness :
  result_of (chatCompletion (chat_endpoint_down error_503_with_message)
               (built_client (lit "key")) [] Chat.no_options (world_at 0))
    = throw (UnclassifiedApiError (Some (JNum 503))
               (Some (JStr (lit "Service Unavailable"))))
  /\ result_of (fimCompletion (failing_with error_503_with_message)
                  (built_client (lit "key")) (lit "def f(") Fim.no_options
                  (world_at 0))
     = throw (UnclassifiedFimError (Some (JNum 503))
                (Some (JStr (lit "Service Unavailable")))
                (data_of error_503_with_message)).
Proof.
  split.
  - destruct (transport_failure_classification
                (chat_endpoint_down error_503_with_message)
                (built_client (lit "key")) (world_at 0)
                error_503_with_message) as [H _].
    destruct (H [] Chat.no_options eq_refl) as (_ & _ & _ & H').
    apply H'; discriminate.
  - destruct (transport_failure_classification
                (failing_with error_503_with_message)
                (built_client (lit "key")) (world_at 0)
                error_503_with_message) as [_ H].
    destruct (H (lit "def f(") Fim.no_options eq_refl) as (_ & _ & _ & H').
    apply H'; discriminate.
Defined.

(** While the chat endpoint is down, the other endpoint answers. *)
Example fim_answers_while_chat_is_down :
  exists r,
    result_of (fimCompletion (chat_endpoint_down error_503_with_message)
                 (built_client (lit "key")) (lit "def f(") Fim.no_options
                 (world_at 0)) = ret r.
Proof. eexists. vm_compute. reflexivity. Qed.

(** A body with zero choices validates, and [chatCompletion] returns the
    response with its empty [choices]. *)
Lemma zero_choices_validate :
  exists r,
    Zod.parse CompletionResponseSchema (Some zero_choice_body) = ret r
    /\ result_of (chatCompletion (answering (Some zero_choice_body))
                    (built_client (lit "key")) [] Chat.no_options (world_at 0))
       = ret r
    /\ choices r = [].
Proof.
  eexists. split; [vm_compute; reflexivity|]. split; reflexivity.
Qed.

Lemma validated_choices_follow_body_witness :
  exists r,
    Zod.parse CompletionResponseSchema (Some zero_choice_body) = ret r
    /\ choices r = [].
Proof.
  destruct (validated_choices_follow_body (answering (Some zero_choice_body))
              (built_client (lit "key")) [] Chat.no_options (lit "def f(")
              Fim.no_options (world_at 0)) as (_ & _ & H).
  unfold zero_choice_body. apply H; reflexivity.
Defined.

(** The extractor then refuses the empty response. *)
Example zero_choices_refused :
  forall r, choices r = [] -> formatResponse r = throw EmptyCompletionError.
Proof. intros r H. unfold formatResponse. now rewrite H. Qed.

Lemma malformed_body_schema_error_witness :
  (exists issues,
     issues <> []
     /\ result_of (chatCompletion (answering (Some body_without_usage))
                     (built_client (lit "key")) [] Chat.no_options (world_at 0))
        = throw (ZodError issues))
  /\ (forall r,
        result_of (chatCompletion (answering (Some body_without_usage))
                     (built_client (lit "key")) [] Chat.no_options (world_at 0))
        <> ret r).
Proof.
  apply (malformed_body_schema_error (answering (Some body_without_usage))
           (built_client (lit "key")) [] Chat.no_options (world_at 0)
           (response := {| status := 200; data := Some body_without_usage |})
           eq_refl eq_refl).
Defined.

(** The issue zod reports for the body without [usage]. *)
Example missing_usage_issue :
  result_of (chatCompletion (answering (Some body_without_usage))
               (built_client (lit "key")) [] Chat.no_options (world_at 0))
    = throw (ZodError [ {| expected := zt_object; received := zt_undefined;
                           path := [Key (lit "usage")] |} ]).
Proof. vm_compute. reflexivity. Qed.

(** A block tagged [c++]: the extractor returns the text as it is, fences
    included, not the trimmed inner text. *)
Lemma non_word_tag_not_extracted_witness :
  formatResponse (completion_saying cpp_block_text) = ret cpp_block_text
  /\ formatResponse (completion_saying cpp_block_text) <> ret (lit "int x;").
Proof.
  exact (@non_word_tag_not_extracted (completion_saying cpp_block_text) _ _
           (lit "c++") (lit "int x;") eq_refl eq_refl eq_refl eq_refl eq_refl).
Defined.

(** Two blocks tagged [c++] with a line of prose between them: the fence
    that closes the first and the fence that opens the second are read as
    one block, and the extractor returns the prose and neither code. *)
Example prose_between_cpp_blocks :
  formatResponse (completion_saying two_cpp_blocks_text) = ret (lit "Then:").
Proof. vm_compute. reflexivity. Qed.

(** A block whose lines end in carriage return and line feed is not
    extracted either: the carriage return stands between tag and line
    feed. *)
Example crlf_block_not_extracted :
  formatResponse (completion_saying crlf_block_text) = ret crlf_block_text.
Proof. vm_compute. reflexivity. Qed.

Lemma extract_fenced_blocks_witness :
  formatResponse (completion_saying two_blocks_text)
    = ret (lit "A" ++ nl ++ nl ++ lit "B").
Proof.
  destruct (@extract_fenced_blocks (completion_saying two_blocks_text) _ _
              two_blocks_text eq_refl eq_refl) as (_ & _ & H).
  apply (H [lit " A " ++ nl; lit "B"]).
  refine (@fenced_block (lit "x ") (lit "js")
            (lit " A " ++ nl ++ lit "``` mid ```" ++ nl ++ lit "B```")
            (lit " A " ++ nl) (lit " mid ```" ++ nl ++ lit "B```") [lit "B"]
            eq_refl eq_refl eq_refl _).
  refine (@fenced_block (lit " mid ") [] (lit "B```") (lit "B") [] []
            eq_refl eq_refl eq_refl _).
  apply fenced_none. reflexivity.
Defined.

Lemma fim_prompt_blocks_witness :
  (exists u,
     createPrompt (lit "f(`a`)") (Some (lit "js")) fim (Some (lit "b")) =
       [ {| role := lit "system"; content := systemPrompts fim |};
         {| role := lit "user"; content := u |} ]
     /\ count_fences u = 4
     /\ Blocks u [lit "f(`a`)" ++ nl; lit "b" ++ nl])
  /\ (exists u,
        createPrompt (lit "f(`a`)") (Some (lit "js")) fim None =
          [ {| role := lit "system"; content := systemPrompts fim |};
            {| role := lit "user"; content := u |} ]
        /\ count_fences u = 2
        /\ Blocks u [lit "f(`a`)" ++ nl]).
Proof.
  destruct (fim_prompt_blocks (lit "f(`a`)") (Some (lit "js"))) as [H1 H2]. split.
  - destruct (H1 (lit "b")) as (u & E & _ & Hc); [discriminate|].
    destruct Hc as [Hn Hb]; [reflexivity|reflexivity|reflexivity|].
    exists u. split; [exact E|]. split; [exact Hn|]. apply Hb. reflexivity.
  - destruct (H2 None) as (u & E & _ & Hc); [now left|].
    destruct Hc as [Hn Hb]; [reflexivity|reflexivity|].
    exists u. split; [exact E|]. split; [exact Hn|]. apply Hb. reflexivity.
Defined.

(** Code that holds a fenced block of its own, as a documentation comment
    may: the prompt with a suffix then has six fence delimiters and is
    read as three blocks, not two; without a suffix it has four and is
    read as two blocks, not one. *)
Lemma fenced_code_adds_blocks :
  (exists u,
     createPrompt code_with_fence None fim (Some (lit "b")) =
       [ {| role := lit "system"; content := systemPrompts fim |};
         {| role := lit "user"; content := u |} ]
     /\ count_fences u = 6 /\ count_fences u <> 4
     /\ length (Regex.matchAll codeBlockRegex u) = 3
     /\ (forall blocks, Blocks u blocks -> length blocks = 3))
  /\ (exists u,
        createPrompt code_with_fence None fim None =
          [ {| role := lit "system"; content := systemPrompts fim |};
            {| role := lit "user"; content := u |} ]
        /\ count_fences u = 4 /\ count_fences u <> 2
        /\ length (Regex.matchAll codeBlockRegex u) = 2
        /\ (forall blocks, Blocks u blocks -> length blocks = 2)).
Proof.
  split; eexists; (split; [reflexivity|]);
    (split; [vm_compute; reflexivity|]); (split; [vm_compute; discriminate|]);
    (split; [vm_compute; reflexivity|]);
    intros blocks Hb;
    pose proof (matchAll_blocks Hb (Nat.lt_succ_diag_r _)) as E;
    apply (f_equal (@length _)) in E; rewrite !length_map in E;
    rewrite <- E; vm_compute; reflexivity.
Qed.

Lemma singleton_accessor_witness :
  getMistralAPI_all [lit "secret"; []; lit "  "; lit "other"] initial_process =
    ([ret 0; ret 0; ret 0; ret 0],
     {| objects := [built_client (lit "secret")]; instance := Some 0 |}).
Proof.
  destruct singleton_accessor as [_ H].
  destruct (H (lit "secret") [[]; lit "  "; lit "other"]) as [_ E].
  - intros T. vm_compute in T. discriminate T.
  - exact E.
Defined.

(** Alone, the empty credential is refused; after a construction it is
    answered with the instance. *)
Example empty_credential_alone :
  fst (getMistralAPI [] initial_process) = throw ConfigError.
Proof. reflexivity. Qed.

(* ===================================================================== *)
(** * Further properties of the client and of its callers *)
(* ===================================================================== *)

(** ** The credential probe *)

Ltac decide_401 p :=
  destruct p as [p|p|];
  try solve [reflexivity | cbn in *; intuition congruence];
  try decide_401 p.

(** The probe answers [true] to every fulfilled response, whatever its
    status and body; it throws the invalid-key error exactly for an HTTP
    error with status 401, for every other HTTP or network error an error
    built from the transport's message alone, and any other thrown value
    as it is. *)
Theorem validateApiKey_outcomes probe this :
  let result := validateApiKey probe this in
  match probe (client this) (lit "/models") with
  | Fulfilled _ => result = ret true
  | Rejected (CaughtAxios error) =>
      (status_of error = Some 401%Z
       /\ result = throw (Error [Text (lit "Invalid API key. Please check your Mistral API key.")]))
      \/ (status_of error <> Some 401%Z
          /\ result = throw (Error [Text (lit "API validation failed: ");
                                    Subst (Some (JStr (error_message error)))]))
  | Rejected (CaughtOther e) => result = throw e
  end.
Proof.
  unfold validateApiKey.
  destruct (probe _ _) as [r|[error|e]]; try reflexivity.
  destruct (status_of error) as [[|p|p]|];
    try (right; split; [discriminate|reflexivity]).
  clear. 
  assert (H : Some (Z.pos p) = Some 401%Z \/ Some (Z.pos p) <> Some 401%Z).
  { destruct (Z.eq_dec (Z.pos p) 401) as [E|E]; [left; now rewrite E|].
    right. intros [= F]. apply E. now rewrite F. }
  destruct H as [H|H].
  - injection H as ->. left. split; reflexivity.
  - right. split; [exact H|]. decide_401 p.
Qed.

(** ** The two completion calls *)

(** [fimCompletion] never lets a [ZodError] out.  On a fulfilled response
    whose body is not structurally valid, [chatCompletion] throws the
    [ZodError] and [fimCompletion] a plain error that quotes its message;
    a rejection that is no HTTP error is rethrown as it is by
    [chatCompletion] and wrapped the same way by [fimCompletion]. *)
Theorem fimCompletion_wraps_failures net this messages options prompt foptions w :
  (forall issues,
     result_of (fimCompletion net this prompt foptions w) <> throw (ZodError issues))
  /\ (forall response,
        net (lit "/chat/completions") (ChatPayload (chatRequestBody messages options))
          = Fulfilled response ->
        net (lit "/fim/completions") (FimPayload (fimRequestBody prompt foptions))
          = Fulfilled response ->
        structurally_valid (data response) = false ->
        exists issues,
          issues <> []
          /\ result_of (chatCompletion net this messages options w)
             = throw (ZodError issues)
          /\ result_of (fimCompletion net this prompt foptions w)
             = throw (Error [Text (lit "Unexpected error during FIM completion: ");
                             SubstMessage (ZodError issues)]))
  /\ (forall e,
        net (lit "/chat/completions") (ChatPayload (chatRequestBody messages options))
          = Rejected (CaughtOther e) ->
        net (lit "/fim/completions") (FimPayload (fimRequestBody prompt foptions))
          = Rejected (CaughtOther e) ->
        result_of (chatCompletion net this messages options w) = throw e
        /\ result_of (fimCompletion net this prompt foptions w)
           = throw (Error [Text (lit "Unexpected error during FIM completion: ");
                           SubstMessage e])).
Proof.
  split; [|split].
  - intros issues. rewrite fimCompletion_result.
    destruct (net _ _) as [response|[error|e]].
    + destruct (Zod.parse _ _); discriminate.
    + unfold fim_catch. destruct (status_of error) as [[|p|p]|]; try discriminate.
      cbn. repeat (destruct p as [p|p|]; try discriminate).
    + discriminate.
  - intros response Hc Hf Hbad.
    pose proof (parse_cases (data response)) as H. rewrite Hbad in H.
    destruct H as (issues & Hne & Hp). exists issues.
    rewrite chatCompletion_result, fimCompletion_result, Hc, Hf, Hp.
    repeat split; auto.
  - intros e Hc Hf.
    rewrite chatCompletion_result, fimCompletion_result, Hc, Hf. split; reflexivity.
Qed.

Lemma fimCompletion_wraps_failures_witness :
  exists issues,
    result_of (chatCompletion (answering (Some body_without_usage))
                 (built_client (lit "key")) [] Chat.no_options (world_at 0))
      = throw (ZodError issues)
    /\ result_of (fimCompletion (answering (Some body_without_usage))
                    (built_client (lit "key")) (lit "def f(") Fim.no_options
                    (world_at 0))
       = throw (Error [Text (lit "Unexpected error during FIM completion: ");
                       SubstMessage (ZodError issues)]).
Proof.
  destruct (fimCompletion_wraps_failures (answering (Some body_without_usage))
              (built_client (lit "key")) [] Chat.no_options (lit "def f(")
              Fim.no_options (world_at 0)) as (_ & H & _).
  destruct (H {| status := 200; data := Some body_without_usage |}
              eq_refl eq_refl eq_refl) as (issues & _ & Hc & Hf).
  exists issues. split; [exact Hc|exact Hf].
Defined.

(** ** Validation *)

(** The bodies that validate are exactly the structurally valid ones:
    an object with string [id], [object] and [model], number [created],
    an array [choices] of well-formed choices and a well-formed [usage]. *)
Theorem validation_exact body :
  (exists r, Zod.parse CompletionResponseSchema body = ret r)
  <-> structurally_valid body = true.
Proof.
  pose proof (parse_cases body) as H.
  destruct (structurally_valid body); split; auto.
  - intros [r Hr]. destruct H as (issues & _ & Hi). rewrite Hi in Hr. discriminate.
  - discriminate.
Qed.

Lemma eqb_neq a b : a <> b -> JsString.eqb a b = false.
Proof. unfold JsString.eqb. now destruct (list_eq_dec N.eq_dec a b). Qed.

Lemma eqb_refl a : JsString.eqb a a = true.
Proof. unfold JsString.eqb. now destruct (list_eq_dec N.eq_dec a a). Qed.

(** Validation reads the six keys of the schema and nothing else: two
    object bodies that agree on them validate alike, whatever the order
    of their keys; in particular a key outside the schema changes
    nothing. *)
Theorem validation_reads_schema_keys :
  let keys := [ lit "id"; lit "object"; lit "created"; lit "model";
                lit "choices"; lit "usage" ] in
  (forall o o',
     (forall k, In k keys -> lookup k o = lookup k o') ->
     Zod.parse CompletionResponseSchema (Some (JObj o))
       = Zod.parse CompletionResponseSchema (Some (JObj o')))
  /\ (forall k v o,
        ~ In k keys ->
        Zod.parse CompletionResponseSchema (Some (JObj ((k, v) :: o)))
          = Zod.parse CompletionResponseSchema (Some (JObj o))).
Proof.
  intros keys.
  assert (H : forall o o',
             (forall k, In k keys -> lookup k o = lookup k o') ->
             Zod.parse CompletionResponseSchema (Some (JObj o))
               = Zod.parse CompletionResponseSchema (Some (JObj o'))).
  { intros o o' Hk. unfold Zod.parse, CompletionResponseSchema.
    cbn [Zod.object]. unfold Zod.key.
    rewrite !(Hk (lit _)) by (cbn; tauto). reflexivity. }
  split; [exact H|].
  intros k v o Hk. apply H. intros k' Hin. cbn [lookup].
  rewrite eqb_neq; [reflexivity|]. intros ->. contradiction.
Qed.

Lemma validation_reads_schema_keys_witness :
  Zod.parse CompletionResponseSchema
    (Some (JObj [ (lit "system_fingerprint", JNull);
                  (lit "id", JStr (lit "cmpl-1")) ]))
  = Zod.parse CompletionResponseSchema
      (Some (JObj [ (lit "id", JStr (lit "cmpl-1")) ])).
Proof.
  destruct validation_reads_schema_keys as [_ H].
  apply H. cbn. intros [E|[E|[E|[E|[E|[E|[]]]]]]]; discriminate E.
Defined.

Lemma issues_of_key {A B} (f : Zod.Shape (A -> B)) k (s : Zod.Schema A) o p :
  issues_of (Zod.key f k s o p) =
    issues_of (f o p) ++ issues_of (s (p ++ [Key k]) (lookup k o)).
Proof.
  unfold Zod.key. destruct (f o p), (s _ _); cbn; auto using app_nil_r.
Qed.

(** Validation does not stop at the first defect: the issues thrown for
    an object body are those of its six fields, one field after the other
    in the order of the schema, and [chatCompletion] throws them all.  A
    field that must be a string (a number) and is not contributes the one
    issue naming its key and the type received. *)
Theorem validation_reports_every_field o :
  let issues :=
    issues_of (Zod.string [Key (lit "id")] (lookup (lit "id") o))
      ++ issues_of (Zod.string [Key (lit "object")] (lookup (lit "object") o))
      ++ issues_of (Zod.number [Key (lit "created")] (lookup (lit "created") o))
      ++ issues_of (Zod.string [Key (lit "model")] (lookup (lit "model") o))
      ++ issues_of (Zod.array ChoiceSchema [Key (lit "choices")]
                      (lookup (lit "choices") o))
      ++ issues_of (UsageSchema [Key (lit "usage")] (lookup (lit "usage") o)) in
  issues_of (CompletionResponseSchema [] (Some (JObj o))) = issues
  /\ (forall net this messages options w,
        net (lit "/chat/completions") (ChatPayload (chatRequestBody messages options))
          = Fulfilled {| status := 200; data := Some (JObj o) |} ->
        structurally_valid (Some (JObj o)) = false ->
        result_of (chatCompletion net this messages options w)
          = throw (ZodError issues))
  /\ (forall p v,
        issues_of (Zod.string p v) =
          if is_string v then []
          else [ {| expected := zt_string; received := Zod.getParsedType v;
                    path := p |} ])
  /\ (forall p v,
        issues_of (Zod.number p v) =
          if is_number v then []
          else [ {| expected := zt_number; received := Zod.getParsedType v;
                    path := p |} ]).
Proof.
  intros issues.
  assert (E : issues_of (CompletionResponseSchema [] (Some (JObj o))) = issues).
  { unfold CompletionResponseSchema. cbn [Zod.object].
    rewrite !issues_of_key. cbn [Zod.shape issues_of app].
    subst issues. now rewrite <- !app_assoc. }
  split; [exact E|]. split; [|split].
  - intros net this messages options w Hnet Hbad.
    rewrite chatCompletion_result, Hnet. cbn [data]. unfold Zod.parse.
    rewrite <- (succeeds_CompletionResponseSchema []) in Hbad.
    rewrite <- E.
    destruct (CompletionResponseSchema [] (Some (JObj o))); [reflexivity|discriminate].
  - intros p v. destruct v as [[]|]; reflexivity.
  - intros p v. destruct v as [[]|]; reflexivity.
Qed.

Lemma validation_reports_every_field_witness :
  result_of (chatCompletion
               (answering (Some (JObj [ (lit "id", JNum 7);
                                        (lit "choices", JArr []) ])))
               (built_client (lit "key")) [] Chat.no_options (world_at 0))
  = throw (ZodError
      [ {| expected := zt_string; received := zt_number; path := [Key (lit "id")] |};
        {| expected := zt_string; received := zt_undefined; path := [Key (lit "object")] |};
        {| expected := zt_number; received := zt_undefined; path := [Key (lit "created")] |};
        {| expected := zt_string; received := zt_undefined; path := [Key (lit "model")] |};
        {| expected := zt_object; received := zt_undefined; path := [Key (lit "usage")] |} ]).
Proof.
  destruct (validation_reports_every_field
              [ (lit "id", JNum 7); (lit "choices", JArr []) ]) as (_ & H & _).
  apply (H (answering _) (built_client (lit "key")) [] Chat.no_options (world_at 0));
    reflexivity.
Defined.

(** ** The prompt builder *)

(** On the three tasks of the earlier builder the later builder returns
    the same prompt, whatever suffix it is given. *)
Theorem createPrompt_agrees_with_earlier code language task suffix :
  createPrompt code language (later_task task) suffix
    = Legacy.createPrompt code language task.
Proof. destruct task; reflexivity. Qed.

Lemma createPrompt_frames language task suffix :
  exists before after, forall code,
    createPrompt code language task suffix =
      [ {| role := lit "system"; content := systemPrompts task |};
        {| role := lit "user"; content := before ++ code ++ after |} ].
Proof.
  unfold createPrompt. destruct (is_fim task && opt_truthy suffix).
  - exists (prompt_intro language ++ lit "```" ++ or_empty language ++ nl),
           (nl ++ lit "```" ++ connective ++ fenced language (or_empty suffix)).
    intros code. unfold prompt_intro, connective, fenced.
    now rewrite <- !app_assoc.
  - exists (prompt_intro language ++ lit "```" ++ or_empty language ++ nl),
           (nl ++ lit "```").
    intros code. unfold prompt_intro. now rewrite <- !app_assoc.
Qed.

(** With the language, the task and the suffix fixed, prompts built from
    different codes differ: the code can be read back from the prompt. *)
Theorem createPrompt_keeps_code code code' language task suffix :
  createPrompt code language task suffix = createPrompt code' language task suffix ->
  code = code'.
Proof.
  destruct (createPrompt_frames language task suffix) as (before & after & F).
  rewrite !F. intros [= H].
  apply app_inv_head in H. now apply app_inv_tail in H.
Qed.

Lemma createPrompt_keeps_code_witness : lit "x = 1" = lit "x = 1".
Proof.
  apply (@createPrompt_keeps_code (lit "x = 1") (lit "x = 1")
           (Some (lit "python")) fim (Some (lit "end")) eq_refl).
Defined.

(** ** The extractor *)

Lemma formatResponse_text completion choice others :
  choices completion = choice :: others ->
  exists text,
    formatResponse completion = ret text
    /\ (text = content (message choice) \/ first_fence text = None).
Proof.
  intros Hc.
  destruct (Blocks_total (content (message choice))) as [blocks Hb].
  rewrite (formatResponse_blocks completion Hc eq_refl Hb).
  eexists. split; [reflexivity|].
  destruct blocks as [|b blocks]; [now left|right].
  apply first_fence_join. apply Blocks_bodies in Hb.
  remember (b :: blocks) as l eqn:El. clear El.
  induction Hb; constructor; auto using first_fence_trim.
Qed.

(** [formatResponse] throws only for a response without choices; on any
    other response it returns a text, which is either the content of the
    first choice as it is or a text without any triple backtick. *)
Theorem formatResponse_outcomes completion :
  match choices completion with
  | [] => formatResponse completion = throw EmptyCompletionError
  | choice :: _ =>
      exists text,
        formatResponse completion = ret text
        /\ (text = content (message choice) \/ first_fence text = None)
  end.
Proof.
  destruct (choices completion) as [|choice others] eqn:Hc.
  - unfold formatResponse. now rewrite Hc.
  - eapply formatResponse_text, Hc.
Qed.

(** Extracting twice is extracting once: a text [formatResponse] has
    returned is returned unchanged when it is the content of a response. *)
Theorem formatResponse_idempotent completion text completion' choice' others' :
  formatResponse completion = ret text ->
  choices completion' = choice' :: others' ->
  content (message choice') = text ->
  formatResponse completion' = ret text.
Proof.
  intros Hf Hc' Ht.
  destruct (choices completion) as [|choice others] eqn:Hc.
  - unfold formatResponse in Hf. rewrite Hc in Hf. discriminate.
  - destruct (formatResponse_text completion Hc) as (text0 & E & Hcases).
    rewrite Hf in E. injection E as <-.
    destruct Hcases as [->|Hn].
    + destruct (Blocks_total (content (message choice))) as [blocks Hb].
      pose proof (formatResponse_blocks completion Hc eq_refl Hb) as E1.
      pose proof (formatResponse_blocks completion' Hc' Ht Hb) as E2.
      rewrite Hf in E1. now rewrite E2, <- E1.
    + now rewrite (formatResponse_blocks completion' Hc' Ht (Blocks_no_fence _ Hn)).
Qed.

Lemma formatResponse_idempotent_witness :
  formatResponse (completion_saying (lit "A" ++ nl ++ nl ++ lit "B"))
    = ret (lit "A" ++ nl ++ nl ++ lit "B").
Proof.
  apply (@formatResponse_idempotent (completion_saying two_blocks_text)
           (lit "A" ++ nl ++ nl ++ lit "B")
           (completion_saying (lit "A" ++ nl ++ nl ++ lit "B")) _ _
           eq_refl eq_refl eq_refl).
Defined.

(** A text with one triple backtick only, such as a block whose closing
    fence is missing, is returned unchanged, the fence included. *)
Theorem unclosed_fence_unchanged completion choice others text before after :
  choices completion = choice :: others ->
  content (message choice) = text ->
  first_fence text = Some (before, after) ->
  first_fence after = None ->
  formatResponse completion = ret text.
Proof.
  intros Hc Ht Hf Ha.
  apply (formatResponse_blocks completion Hc Ht (blocks := [])).
  constructor. intros i.
  destruct (Nat.lt_ge_cases i (length before)) as [Hi|Hi].
  - unfold block_at. erewrite first_fence_is_first; eauto.
  - apply block_at_needs_closing. rewrite skipn_skipn.
    rewrite (first_fence_split _ Hf) at 1.
    rewrite skipn_app, (skipn_all2 before) by lia. cbn [app].
    rewrite skipn_app, (skipn_all2 (lit "```"))
      by (change (length (lit "```")) with 3; lia).
    cbn [app].
    now apply first_fence_skipn.
Qed.

Lemma unclosed_fence_unchanged_witness :
  formatResponse (completion_saying (lit "```python" ++ nl ++ lit "def f(x):"))
    = ret (lit "```python" ++ nl ++ lit "def f(x):").
Proof.
  apply (@unclosed_fence_unchanged
           (completion_saying (lit "```python" ++ nl ++ lit "def f(x):")) _ _ _
           [] (lit "python" ++ nl ++ lit "def f(x):")
           eq_refl eq_refl eq_refl eq_refl).
Defined.

(** ** The prompt, read back by the extractor *)

Lemma trim_trailing_space s c : is_space c = true -> trim (s ++ [c]) = trim s.
Proof.
  intros Hc. unfold trim, trimEnd, trimStart.
  destruct (forallb is_space s) eqn:E.
  - assert (E' : forallb is_space (s ++ [c]) = true)
      by (rewrite forallb_app, E; cbn; now rewrite Hc).
    apply dropWhile_nil_iff in E, E'. now rewrite E, E'.
  - assert (D : dropWhile is_space (s ++ [c]) = dropWhile is_space s ++ [c]).
    { induction s as [|x s IH]; [discriminate|]. cbn in E |- *.
      destruct (is_space x); [now apply IH|reflexivity]. }
    rewrite D, rev_app_distr. cbn [rev app dropWhile]. now rewrite Hc.
Qed.

Lemma trim_trailing_nl s : trim (s ++ nl) = trim s.
Proof. now apply trim_trailing_space. Qed.

Lemma word_no_backtick s : forallb is_word s = true -> no_backtick s = true.
Proof.
  unfold no_backtick. induction s as [|c s IH]; [reflexivity|]. cbn [forallb].
  intros H. apply andb_true_iff in H as [Hc Hs]. rewrite (IH Hs), andb_true_r.
  destruct (N.eqb_spec c BACKTICK) as [->|]; [discriminate|reflexivity].
Qed.

(** A completion that repeats the user message of a prompt is extracted
    to the code the prompt was built from, trimmed, followed for a
    fill-in-the-middle prompt with a suffix by a blank line and the
    trimmed suffix; this for code and suffix without backtick and a
    language of word characters. *)
Theorem prompt_read_back code language task suffix system user
    completion choice others :
  no_backtick code = true ->
  no_backtick (or_empty suffix) = true ->
  forallb is_word (or_empty language) = true ->
  createPrompt code language task suffix = [system; user] ->
  choices completion = choice :: others ->
  content (message choice) = content user ->
  formatResponse completion =
    ret (if is_fim task && opt_truthy suffix
         then trim code ++ nl ++ nl ++ trim (or_empty suffix)
         else trim code).
Proof.
  intros Hcode Hsuf Hlang Hp Hc Ht.
  assert (Hl : no_backtick (or_empty language) = true)
    by now apply word_no_backtick.
  assert (Hi : no_backtick (prompt_intro language) = true).
  { unfold prompt_intro. destruct (opt_truthy language);
      auto using no_backtick_app. }
  destruct (is_fim task && opt_truthy suffix) eqn:E.
  - assert (Hs : exists s, suffix = Some s /\ s <> [] /\ or_empty suffix = s
                           /\ task = fim).
    { destruct task; try discriminate. destruct suffix as [[|c s]|]; try discriminate.
      exists (c :: s). repeat split. discriminate. }
    destruct Hs as (s & -> & Hne & Es & ->). rewrite Es in *.
    pose proof (eq_trans (eq_sym (createPrompt_fim_suffix code language Hne)) Hp)
      as Hu.
    apply (f_equal (fun l => content (nth 1 l user))) in Hu.
    cbn [nth content] in Hu. rewrite <- Hu in Ht.
    rewrite (formatResponse_blocks completion Hc Ht
               (blocks := [code ++ nl; s ++ nl])).
    + cbn [map join]. now rewrite !trim_trailing_nl.
    + apply FencedText_Blocks. apply fenced_reads; auto.
      rewrite <- (app_nil_r (fenced language s)).
      apply fenced_reads; auto. now constructor.
  - rewrite (createPrompt_plain code language task suffix E) in Hp.
    apply (f_equal (fun l => content (nth 1 l user))) in Hp.
    cbn [nth content] in Hp. rewrite <- Hp in Ht.
    rewrite (formatResponse_blocks completion Hc Ht (blocks := [code ++ nl])).
    + cbn [map join]. now rewrite trim_trailing_nl.
    + apply FencedText_Blocks.
      rewrite <- (app_nil_r (fenced language code)).
      apply fenced_reads; auto. now constructor.
Qed.

Lemma prompt_read_back_witness :
  formatResponse
    (completion_saying
       (lit "Here is the python code:" ++ nl ++ nl ++ lit "```python" ++ nl
          ++ lit "  x = 1" ++ nl ++ lit "```"))
    = ret (lit "x = 1").
Proof.
  apply (@prompt_read_back (lit "  x = 1") (Some (lit "python")) fix_ None
           {| role := lit "system"; content := systemPrompts fix_ |}
           {| role := lit "user";
              content := lit "Here is the python code:" ++ nl ++ nl
                           ++ lit "```python" ++ nl ++ lit "  x = 1" ++ nl
                           ++ lit "```" |}
           (completion_saying _) _ _
           eq_refl eq_refl eq_refl eq_refl eq_refl eq_refl).
Defined.

(** ** The accessor, from the start of the process *)

Lemma getMistralAPI_blank k :
  forallb is_space k = true ->
  getMistralAPI k initial_process = (throw ConfigError, initial_process).
Proof.
  intros H. unfold getMistralAPI. cbn [instance initial_process].
  now rewrite new_MistralAPI_cases, H.
Qed.

(** A refused credential leaves no trace: while the credentials given are
    blank, each call throws and the process is as it began; the first
    credential that is not blank builds the one instance, and every call
    after it returns that instance. *)
Theorem accessor_first_success blanks key later :
  forallb (forallb is_space) blanks = true ->
  forallb is_space key = false ->
  getMistralAPI_all blanks initial_process
    = (map (fun _ => throw ConfigError) blanks, initial_process)
  /\ getMistralAPI_all (blanks ++ key :: later) initial_process
     = (map (fun _ => throw ConfigError) blanks
          ++ ret 0 :: map (fun _ => ret 0) later,
        {| objects := [built_client key]; instance := Some 0 |}).
Proof.
  intros Hb Hk. induction blanks as [|b blanks IH].
  - split; [reflexivity|]. cbn [app map getMistralAPI_all].
    unfold getMistralAPI at 1. cbn [instance initial_process].
    rewrite new_MistralAPI_cases, Hk. cbn [ret objects length app].
    now rewrite getMistralAPI_all_reuse.
  - cbn [forallb] in Hb. apply andb_true_iff in Hb as [Hb Hbs].
    destruct (IH Hbs) as [IH1 IH2].
    cbn [app map getMistralAPI_all].
    rewrite (getMistralAPI_blank _ Hb), IH1, IH2. split; reflexivity.
Qed.

Lemma accessor_first_success_witness :
  getMistralAPI_all [[]; lit "   "; lit " sk-1 "; lit "sk-2"] initial_process
    = ([throw ConfigError; throw ConfigError; ret 0; ret 0],
       {| objects := [built_client (lit " sk-1 ")]; instance := Some 0 |}).
Proof.
  destruct (@accessor_first_success [[]; lit "   "] (lit " sk-1 ") [lit "sk-2"]
              eq_refl eq_refl) as [_ H].
  exact H.
Defined.

(** ** The tool handler *)

Lemma eqb_eq a b : JsString.eqb a b = true -> a = b.
Proof. unfold JsString.eqb. now destruct (list_eq_dec N.eq_dec a b). Qed.

Lemma callTool_code_completion net mistralApi args w :
  callTool net mistralApi (lit "code_completion") args w =
    match CodeCompletionSchema args with
    | inl issues => (ret (error_result (BadArguments issues)), mistralApi, w)
    | inr params =>
        let r := chatCompletion net mistralApi
                   (createPrompt (param_code params) (param_language params)
                                 (param_task params) None)
                   Chat.no_options w in
        (ret match result_of r with
             | inl error => error_result (Failed error)
             | inr completion =>
                 match formatResponse completion with
                 | inl error => error_result (Failed error)
                 | inr formattedResponse =>
                     {| tool_text := Formatted formattedResponse; isError := None |}
                 end
             end,
         client_of r, world_of r)
    end.
Proof.
  unfold callTool. rewrite eqb_refl.
  destruct (CodeCompletionSchema args) as [issues|params]; [reflexivity|].
  cbn zeta.
  destruct (chatCompletion _ _ _ _ _) as [[[e|c] a] w']; cbn; [reflexivity|].
  destruct (formatResponse c); reflexivity.
Qed.

(** The handler of [code_completion] never throws: whatever the arguments
    and whatever the network does, it returns a result, flagged as an
    error exactly when its text is an error message; it leaves the client
    as it was and sends one chat request, with default options, when the
    arguments are accepted, and nothing when they are refused.  For any
    other tool name it throws and sends nothing. *)
Theorem callTool_envelope net mistralApi args w :
  (exists result,
     result_of (callTool net mistralApi (lit "code_completion") args w) = ret result
     /\ ((isError result = Some true /\ exists e, tool_text result = ErrorMessage e)
         \/ (isError result = None /\ exists t, tool_text result = Formatted t)))
  /\ client_of (callTool net mistralApi (lit "code_completion") args w) = mistralApi
  /\ world_of (callTool net mistralApi (lit "code_completion") args w) =
       {| now := now w;
          outbox := outbox w ++
            match CodeCompletionSchema args with
            | inr params => [tool_request (now w) params]
            | inl _ => []
            end |}
  /\ (forall name,
        name <> lit "code_completion" ->
        callTool net mistralApi name args w =
          (throw (Error [Text (lit "Unknown tool: "); Subst (Some (JStr name))]),
           mistralApi, w)).
Proof.
  rewrite callTool_code_completion.
  split; [|split; [|split]].
  - destruct (CodeCompletionSchema args) as [issues|params].
    + eexists. split; [reflexivity|]. left. cbn. eauto.
    + cbn zeta. unfold result_of at 1. cbn [fst].
      eexists. split; [reflexivity|].
      destruct (result_of _) as [e|c]; [left; cbn; eauto|].
      destruct (formatResponse c); [left|right]; cbn; eauto.
  - destruct (CodeCompletionSchema args) as [issues|params]; [reflexivity|].
    cbn zeta. unfold client_of at 1. cbn [fst snd].
    apply chatCompletion_client.
  - destruct (CodeCompletionSchema args) as [issues|params].
    + unfold world_of. cbn [snd]. rewrite app_nil_r. now destruct w.
    + cbn zeta. unfold world_of at 1. cbn [snd].
      apply chatCompletion_world.
  - intros name Hn. unfold callTool. now rewrite eqb_neq.
Qed.

Lemma callTool_envelope_witness :
  callTool (answering None) (built_client (lit "key")) (lit "code_review")
           None (world_at 0)
    = (throw (Error [Text (lit "Unknown tool: ");
                     Subst (Some (JStr (lit "code_review")))]),
       built_client (lit "key"), world_at 0).
Proof.
  destruct (callTool_envelope (answering None) (built_client (lit "key")) None
              (world_at 0)) as (_ & _ & _ & H).
  apply H. discriminate.
Defined.

Lemma string_inr p v c : Zod.string p v = inr c -> v = Some (JStr c).
Proof. destruct v as [[]|]; try discriminate. now intros [= ->]. Qed.

Lemma optional_string_inr p v l :
  Zod.optional Zod.string p v = inr l -> v = option_map JStr l.
Proof.
  destruct v as [[]|]; try discriminate; now intros [= <-].
Qed.

Lemma task_enum_inr p v t :
  task_enum p v = inr t -> v = Some (JStr (task_name t)) /\ t <> fim.
Proof.
  destruct v as [[| | |s| |]|]; try discriminate. cbn [task_enum].
  destruct (JsString.eqb s (lit "complete")) eqn:E1;
    [|destruct (JsString.eqb s (lit "fix")) eqn:E2;
      [|destruct (JsString.eqb s (lit "test")) eqn:E3]];
    try discriminate; intros [= <-];
    first [apply eqb_eq in E1 | apply eqb_eq in E2 | apply eqb_eq in E3];
    subst s; split; (reflexivity || discriminate).
Qed.

(** The arguments the handler accepts are the objects with a string
    [code], a [language] that is absent or a string, and a [task] that is
    one of the strings complete, fix and test; the parameters are those
    values.  The task fim, which the prompt builder knows, is refused. *)
Theorem tool_arguments_accepted args code language task :
  CodeCompletionSchema args
    = inr {| param_code := code; param_language := language; param_task := task |}
  <-> (exists o,
         args = Some (JObj o)
         /\ lookup (lit "code") o = Some (JStr code)
         /\ lookup (lit "language") o = option_map JStr language
         /\ lookup (lit "task") o = Some (JStr (task_name task))
         /\ task <> fim).
Proof.
  split.
  - unfold CodeCompletionSchema.
    destruct args as [[| | | | |o]|]; try discriminate.
    destruct (Zod.string _ (lookup (lit "code") o)) as [e1|c] eqn:Ec;
      destruct (Zod.optional _ _ (lookup (lit "language") o)) as [e2|l] eqn:El;
      destruct (task_enum _ (lookup (lit "task") o)) as [e3|t] eqn:Et;
      cbn [lift_issues]; try discriminate.
    intros [= <- <- <-]. exists o.
    apply string_inr in Ec. apply optional_string_inr in El.
    apply task_enum_inr in Et as [Et Hf]. auto.
  - intros (o & -> & Hc & Hl & Ht & Hf). unfold CodeCompletionSchema.
    rewrite Hc, Hl, Ht.
    destruct task; try congruence; destruct language; reflexivity.
Qed.

Lemma tool_arguments_accepted_witness :
  CodeCompletionSchema
    (Some (JObj [ (lit "task", JStr (lit "fix")); (lit "code", JStr (lit "x")) ]))
  = inr {| param_code := lit "x"; param_language := None; param_task := fix_ |}.
Proof.
  apply tool_arguments_accepted.
  exists [ (lit "task", JStr (lit "fix")); (lit "code", JStr (lit "x")) ].
  repeat split. discriminate.
Defined.

(** What the handler answers once the arguments are accepted: the
    extracted text when the response validates and has a choice; an
    error result carrying the extractor's error for a validated response
    without choices, the [ZodError] for a body that does not validate,
    and the client's classified error when the request is rejected. *)
Theorem callTool_pipeline net mistralApi args params w :
  CodeCompletionSchema args = inr params ->
  let request :=
    ChatPayload
      (chatRequestBody
         (createPrompt (param_code params) (param_language params)
                       (param_task params) None)
         Chat.no_options) in
  let result := result_of (callTool net mistralApi (lit "code_completion") args w) in
  (forall response completion text,
     net (lit "/chat/completions") request = Fulfilled response ->
     Zod.parse CompletionResponseSchema (data response) = ret completion ->
     formatResponse completion = ret text ->
     result = ret {| tool_text := Formatted text; isError := None |})
  /\ (forall response completion,
        net (lit "/chat/completions") request = Fulfilled response ->
        Zod.parse CompletionResponseSchema (data response) = ret completion ->
        choices completion = [] ->
        result = ret (error_result (Failed EmptyCompletionError)))
  /\ (forall response,
        net (lit "/chat/completions") request = Fulfilled response ->
        structurally_valid (data response) = false ->
        exists issues,
          issues <> []
          /\ result = ret (error_result (Failed (ZodError issues))))
  /\ (forall error,
        net (lit "/chat/completions") request = Rejected error ->
        result = ret (error_result (Failed (chat_catch error)))).
Proof.
  intros Hargs request result. subst result.
  rewrite callTool_code_completion, Hargs. cbn zeta.
  unfold result_of at 1. cbn [fst]. rewrite chatCompletion_result.
  fold request. repeat split.
  - intros response completion text H1 H2 H3. rewrite H1, H2.
    unfold ret in *. cbn iota. now rewrite H3.
  - intros response completion H1 H2 Hc. rewrite H1, H2.
    unfold ret. cbn iota. unfold formatResponse. now rewrite Hc.
  - intros response H1 Hbad. rewrite H1.
    pose proof (parse_cases (data response)) as H. rewrite Hbad in H.
    destruct H as (issues & Hne & H2). rewrite H2. eauto.
  - intros error H1. now rewrite H1.
Qed.

Lemma callTool_pipeline_witness :
  result_of (callTool
               (answering (Some (body_saying (lit "Fixed:" ++ nl ++ lit "```js"
                                                ++ nl ++ lit "y" ++ nl ++ lit "```"))))
               (built_client (lit "key")) (lit "code_completion")
               fix_x_arguments (world_at 0))
    = ret {| tool_text := Formatted (lit "y"); isError := None |}.
Proof.
  destruct (@callTool_pipeline
              (answering (Some (body_saying (lit "Fixed:" ++ nl ++ lit "```js"
                                               ++ nl ++ lit "y" ++ nl ++ lit "```"))))
              (built_client (lit "key")) fix_x_arguments
              {| param_code := lit "x"; param_language := None; param_task := fix_ |}
              (world_at 0) eq_refl) as (H & _).
  apply (H {| status := 200;
              data := Some (body_saying (lit "Fixed:" ++ nl ++ lit "```js"
                                           ++ nl ++ lit "y" ++ nl ++ lit "```")) |}
           (completion_saying (lit "Fixed:" ++ nl ++ lit "```js"
                                 ++ nl ++ lit "y" ++ nl ++ lit "```")));
    vm_compute; reflexivity.
Defined.

(** ** Start-up *)

(** From a fresh process the server comes up exactly when the key is set,
    has a character that is no whitespace, and the probe made with the
    client built from it is fulfilled; the client then is the one
    instance, holding the trimmed key.  A key that is set but blank
    passes the check of the environment and is stopped by the
    constructor, before any probe; a key that is missing or empty makes
    the check of the environment throw. *)
Theorem startup_outcomes key probe :
  ((exists r p, startup key probe initial_process = (Serving r, p))
   <-> (exists k response,
          key = Some k /\ forallb is_space k = false
          /\ probe (client (built_client k)) (lit "/models") = Fulfilled response))
  /\ (forall r p,
        startup key probe initial_process = (Serving r, p) ->
        exists k,
          key = Some k /\ r = 0
          /\ p = {| objects := [built_client k]; instance := Some 0 |}
          /\ apiKey (built_client k) = trim k)
  /\ (forall k,
        key = Some k -> k <> [] -> forallb is_space k = true ->
        startup key probe initial_process = (Exit1 ConfigError, initial_process))
  /\ (key = None ->
        startup key probe initial_process = (Uncaught env_required, initial_process))
  /\ (key = Some [] ->
        startup key probe initial_process = (Uncaught env_too_small, initial_process)).
Proof.
  assert (Hrun : forall k, k <> [] -> forallb is_space k = false ->
            startup (Some k) probe initial_process =
              (match validateApiKey probe (built_client k) with
               | inl e => Exit1 e
               | inr _ => Serving 0
               end,
               {| objects := [built_client k]; instance := Some 0 |})).
  { intros k Hne Hk. unfold startup.
    destruct k as [|c k]; [congruence|]. cbn [envSchema].
    unfold getMistralAPI. cbn [instance initial_process].
    rewrite new_MistralAPI_cases, Hk. cbn [ret objects length app deref nth].
    destruct (validateApiKey _ _); reflexivity. }
  assert (Hblank : forall k, k <> [] -> forallb is_space k = true ->
            startup (Some k) probe initial_process
              = (Exit1 ConfigError, initial_process)).
  { intros k Hne Hk. unfold startup.
    destruct k as [|c k]; [congruence|]. cbn [envSchema].
    now rewrite (getMistralAPI_blank _ Hk). }
  assert (Hserve : forall r p,
            startup key probe initial_process = (Serving r, p) ->
            exists k response,
              key = Some k /\ forallb is_space k = false
              /\ probe (client (built_client k)) (lit "/models") = Fulfilled response
              /\ r = 0
              /\ p = {| objects := [built_client k]; instance := Some 0 |}).
  { intros r p H. destruct key as [[|c k]|]; try discriminate.
    destruct (forallb is_space (c :: k)) eqn:Hk.
    - rewrite Hblank in H by (auto; discriminate). discriminate.
    - rewrite Hrun in H by (auto; discriminate).
      unfold validateApiKey in H.
      destruct (probe _ _) as [response|[error|e]] eqn:Hp.
      + injection H as <- <-. exists (c :: k), response. auto.
      + destruct (status_of error) as [[|q|q]|]; try discriminate.
        cbn in H. repeat (destruct q as [q|q|]; try discriminate).
      + discriminate. }
  split; [split|split; [|split; [|split]]].
  - intros (r & p & H). destruct (Hserve r p H) as (k & response & ? & ? & ? & _).
    eauto.
  - intros (k & response & -> & Hk & Hp).
    exists 0, {| objects := [built_client k]; instance := Some 0 |}.
    rewrite Hrun; auto.
    + unfold validateApiKey. now rewrite Hp.
    + intros ->. discriminate.
  - intros r p H. destruct (Hserve r p H) as (k & response & ? & ? & ? & ? & ?).
    exists k. auto.
  - intros k -> Hne Hk. now apply Hblank.
  - now intros ->.
  - now intros ->.
Qed.

Lemma startup_outcomes_witness :
  startup (Some (lit " sk-1 ")) probe_ok initial_process
    = (Serving 0, {| objects := [built_client (lit " sk-1 ")]; instance := Some 0 |})
  /\ startup (Some (lit "   ")) probe_ok initial_process
     = (Exit1 ConfigError, initial_process).
Proof.
  destruct (startup_outcomes (Some (lit "   ")) probe_ok) as (_ & _ & Hb & _).
  split; [reflexivity|].
  apply (Hb (lit "   ")); [reflexivity|discriminate|reflexivity].
Defined.

(** A body that is no object at all (none, [null], a string, an array)
    is refused with the single issue saying so. *)
Theorem non_object_body_refused net this messages options w response :
  net (lit "/chat/completions") (ChatPayload (chatRequestBody messages options))
    = Fulfilled response ->
  (forall o, data response <> Some (JObj o)) ->
  result_of (chatCompletion net this messages options w)
    = throw (ZodError [ {| expected := zt_object;
                           received := Zod.getParsedType (data response);
                           path := [] |} ]).
Proof.
  intros Hnet Hno. rewrite chatCompletion_result, Hnet.
  destruct (data response) as [[| | | | |o]|]; try reflexivity.
  now destruct (Hno o).
Qed.

Lemma non_object_body_refused_witness :
  result_of (chatCompletion (answering (Some (JStr (lit "<html>"))))
               (built_client (lit "key")) [] Chat.no_options (world_at 0))
    = throw (ZodError [ {| expected := zt_object; received := zt_string;
                           path := [] |} ]).
Proof.
  apply (@non_object_body_refused (answering (Some (JStr (lit "<html>"))))
           (built_client (lit "key")) [] Chat.no_options (world_at 0)
           {| status := 200; data := Some (JStr (lit "<html>")) |} eq_refl).
  intros o. discriminate.
Defined.

(** ** The funding search *)

(** The funding search posts one chat request, with temperature 0.3,
    2000 tokens and the default model and top_p.  On a validated response
    it returns the content of the first choice as it is, fences included,
    with the location, the business idea and the funding types it was
    given, and the date read when the answer has come, which is the time
    the call took after the request left; on a validated response without
    choices it throws an error, the type error of reading a property of
    [undefined], which is not the error of the extractor; and an error of
    the client comes out unchanged. *)
Theorem searchFundingOpportunities_outcomes
    toISOString net this businessData types place took w :
  let prompt := createFundingSearchPrompt businessData types place in
  let request := ChatPayload (chatRequestBody prompt funding_options) in
  let run := searchFundingOpportunities toISOString net this businessData
               types place took w in
  (exists b,
     outbox (world_of run) =
       outbox w ++ [ {| sent_at := now w; sent_to := lit "/chat/completions";
                        sent_body := ChatPayload b |} ]
     /\ Chat.body_messages b = prompt
     /\ Chat.body_model b = lit "codestral-latest"
     /\ Chat.body_temperature b = (3 # 10)%Q
     /\ Chat.body_top_p b = 1%Q
     /\ Chat.body_max_tokens b = 2000%Q)
  /\ (forall response completion choice others,
        net (lit "/chat/completions") request = Fulfilled response ->
        Zod.parse CompletionResponseSchema (data response) = ret completion ->
        choices completion = choice :: others ->
        result_of run =
          ret {| fundingOpportunities := content (message choice);
                 search_location := place;
                 businessType := businessIdea businessData;
                 fundingTypesSearched := types;
                 searchDate := toISOString (now w + took)%Z |})
  /\ (forall response completion,
        net (lit "/chat/completions") request = Fulfilled response ->
        Zod.parse CompletionResponseSchema (data response) = ret completion ->
        choices completion = [] ->
        (exists parts, result_of run = throw (Error parts))
        /\ result_of run <> throw EmptyCompletionError)
  /\ (forall e,
        result_of (chatCompletion net this prompt funding_options w) = throw e ->
        result_of run = throw e).
Proof.
  intros prompt request run.
  assert (E : run =
            let r := chatCompletion net this prompt funding_options w in
            (match result_of r with
             | inl error => throw error
             | inr response =>
                 match choices response with
                 | [] => throw (Error [Text (lit "Cannot read properties of undefined (reading 'message')")])
                 | choice0 :: _ =>
                     ret {| fundingOpportunities := content (message choice0);
                            search_location := place;
                            businessType := businessIdea businessData;
                            fundingTypesSearched := types;
                            searchDate :=
                              toISOString (now (elapse took (world_of r))) |}
                 end
             end, client_of r, elapse took (world_of r))).
  { subst run. unfold searchFundingOpportunities. fold prompt. cbn zeta.
    destruct (chatCompletion _ _ _ _ _) as [[[e|c] a] w']; cbn; [reflexivity|].
    destruct (choices c); reflexivity. }
  rewrite E. cbn zeta. unfold world_of at 1, result_of at 1 2 3 4.
  cbn [fst snd].
  fold (result_of (chatCompletion net this prompt funding_options w)).
  rewrite chatCompletion_world. cbn [now elapse outbox].
  split; [|split; [|split]].
  - eexists. split; [reflexivity|]. cbn. repeat split.
  - intros response completion choice others H1 H2 H3.
    rewrite chatCompletion_result. fold request. rewrite H1, H2.
    unfold ret. cbn iota. now rewrite H3.
  - intros response completion H1 H2 H3.
    rewrite chatCompletion_result. fold request. rewrite H1, H2.
    unfold ret. cbn iota. rewrite H3.
    split; [eexists; reflexivity|discriminate].
  - intros e He. now rewrite He.
Qed.

(** A search whose answer takes 1500 ms: the date is read at 1500, for a
    request that left at 0. *)
Lemma searchFundingOpportunities_outcomes_witness :
  let run :=
    searchFundingOpportunities (fun t => if (t =? 1500)%Z then lit "late" else lit "early")
      (answering (Some (body_saying (lit "Apply to the regional fund."))))
      (built_client (lit "key")) bakery [lit "grants"] (lit "Lyon") 1500
      (world_at 0) in
  result_of run =
    ret {| fundingOpportunities := lit "Apply to the regional fund.";
           search_location := lit "Lyon";
           businessType := lit "a bakery";
           fundingTypesSearched := [lit "grants"];
           searchDate := lit "late" |}
  /\ start_times (world_of run) = [0%Z].
Proof.
  intros run. split; [|reflexivity].
  destruct (searchFundingOpportunities_outcomes
              (fun t => if (t =? 1500)%Z then lit "late" else lit "early")
              (answering (Some (body_saying (lit "Apply to the regional fund."))))
              (built_client (lit "key")) bakery [lit "grants"] (lit "Lyon") 1500
              (world_at 0)) as (_ & H & _).
  exact (H {| status := 200;
              data := Some (body_saying (lit "Apply to the regional fund.")) |}
           (completion_saying (lit "Apply to the regional fund.")) _ _
           eq_refl eq_refl eq_refl).
Defined.

(** ** The stored credential *)

Lemma dropWhile_head p s c t : dropWhile p s = c :: t -> p c = false.
Proof.
  induction s as [|x s IH]; [discriminate|]. cbn [dropWhile].
  destruct (p x) eqn:E; [exact IH|]. now intros [= <- _].
Qed.

Lemma dropWhile_idem p s : dropWhile p (dropWhile p s) = dropWhile p s.
Proof.
  destruct (dropWhile p s) as [|c t] eqn:E; [reflexivity|].
  cbn [dropWhile]. now rewrite (dropWhile_head _ _ E).
Qed.

Lemma trim_first s c rest : trim s = c :: rest -> is_space c = false.
Proof.
  unfold trim, trimEnd, trimStart. intros H.
  destruct (dropWhile_split is_space (rev (dropWhile is_space s))) as [w E].
  apply (f_equal (@rev N)) in E. rewrite rev_involutive, rev_app_distr, H in E.
  cbn [app] in E. now apply dropWhile_head in E.
Qed.

Lemma trim_last s c front : trim s = front ++ [c] -> is_space c = false.
Proof.
  unfold trim, trimEnd. intros H.
  apply (f_equal (@rev N)) in H. rewrite rev_involutive, rev_app_distr in H.
  cbn [rev app] in H. now apply dropWhile_head in H.
Qed.

Lemma trim_idem s : trim (trim s) = trim s.
Proof.
  assert (Hs : trimStart (trim s) = trim s).
  { unfold trimStart. destruct (trim s) as [|c t] eqn:E; [reflexivity|].
    cbn [dropWhile]. now rewrite (trim_first _ E). }
  unfold trim at 1. rewrite Hs. unfold trim, trimEnd.
  now rewrite rev_involutive, dropWhile_idem.
Qed.

(** The credential a client stores is never empty and neither starts nor
    ends with whitespace; building a client from the stored credential
    gives the same client again. *)
Theorem stored_credential_trimmed credential this :
  new_MistralAPI credential = ret this ->
  apiKey this <> []
  /\ (forall c rest, apiKey this = c :: rest -> is_space c = false)
  /\ (forall c front, apiKey this = front ++ [c] -> is_space c = false)
  /\ new_MistralAPI (apiKey this) = ret this.
Proof.
  rewrite new_MistralAPI_cases.
  destruct (forallb is_space credential) eqn:E; [discriminate|].
  intros [= <-]. cbn [apiKey built_client].
  assert (Hne : trim credential <> []).
  { intros H. apply trim_nil_iff in H. congruence. }
  split; [exact Hne|]. split; [apply trim_first|]. split; [apply trim_last|].
  rewrite new_MistralAPI_cases.
  destruct (forallb is_space (trim credential)) eqn:E'.
  - apply trim_nil_iff in E'. rewrite trim_idem in E'. contradiction.
  - unfold built_client. now rewrite trim_idem.
Qed.

Lemma stored_credential_trimmed_witness :
  apiKey (built_client (lit " sk-1 ")) = lit "sk-1"
  /\ new_MistralAPI (lit "sk-1") = ret (built_client (lit " sk-1 ")).
Proof.
  destruct (@stored_credential_trimmed (lit " sk-1 ") (built_client (lit " sk-1 "))
              eq_refl) as (_ & _ & _ & H).
  split; [reflexivity|exact H].
Defined.
